(** * earth-diagram: the damped-animation and coordinate-projection core

    A shallow embedding of

    - [src/utils/latLongToVec.js] and its copy in [src/components/wonderLabel.jsx]
      ([latLonToVec3]),
    - [src/components/loadingOverlay.jsx] (the overlay phase machine), and
    - [src/components/wonderLabel.jsx] (the callout hover-expansion machine).

    JavaScript numbers are IEEE-754 doubles.  They are idealised here as real
    numbers; the one place of the program where a division can leave the
    finite numbers (the image aspect ratio, and with it the image height and
    the background block of the callout's frame callback) is modelled over
    [jsnum], which adds the infinities and NaN.  React refs and state cells become record
    fields, hook callbacks become functions on those records, and the
    scheduling of renders and frames becomes an explicit list of events. *)

From Stdlib Require Import Reals Lra Lia List Bool.
Import ListNotations.

Open Scope R_scope.

(* ------------------------------------------------------------------ *)
(** ** JavaScript numeric helpers *)

Module JS.

(** [x || d] on numbers: the left operand unless it is falsy (zero). *)
Definition or_default (x d : R) : R :=
  if Req_dec_T x 0 then d else x.

(** [Math.abs(x) > eps] *)
Definition abs_gt (x eps : R) : bool :=
  if Rlt_dec eps (Rabs x) then true else false.

(** [x >= y] *)
Definition geb (x y : R) : bool :=
  if Rle_dec y x then true else false.

(** [x < y] *)
Definition ltb (x y : R) : bool :=
  if Rlt_dec x y then true else false.

(** Numbers that can leave the reals.  Zero is unsigned (the operands that
    matter are pixel counts and lengths, so a zero is [+0]). *)
Inductive jsnum : Type :=
| Fin (x : R)
| PosInf
| NegInf
| NaN.

Definition finite (a : jsnum) : Prop :=
  match a with Fin _ => True | _ => False end.

(** IEEE division. *)
Definition jdiv (a b : jsnum) : jsnum :=
  match a, b with
  | NaN, _ => NaN
  | _, NaN => NaN
  | Fin x, Fin y =>
      if Req_dec_T y 0 then
        if Req_dec_T x 0 then NaN
        else if Rlt_dec 0 x then PosInf else NegInf
      else Fin (x / y)
  | Fin _, PosInf => Fin 0
  | Fin _, NegInf => Fin 0
  | PosInf, Fin y => if Rlt_dec y 0 then NegInf else PosInf
  | NegInf, Fin y => if Rlt_dec y 0 then PosInf else NegInf
  | PosInf, PosInf => NaN
  | PosInf, NegInf => NaN
  | NegInf, PosInf => NaN
  | NegInf, NegInf => NaN
  end.

(** IEEE subtraction. *)
Definition jsub (a b : jsnum) : jsnum :=
  match a, b with
  | NaN, _ => NaN
  | _, NaN => NaN
  | Fin x, Fin y => Fin (x - y)
  | Fin _, PosInf => NegInf
  | Fin _, NegInf => PosInf
  | PosInf, Fin _ => PosInf
  | NegInf, Fin _ => NegInf
  | PosInf, NegInf => PosInf
  | NegInf, PosInf => NegInf
  | PosInf, PosInf => NaN
  | NegInf, NegInf => NaN
  end.

(** [Object.is] on numbers, the comparison React applies to hook
    dependencies: NaN is the same value as NaN. *)
Definition same_value (a b : jsnum) : bool :=
  match a, b with
  | Fin x, Fin y => if Req_dec_T x y then true else false
  | PosInf, PosInf => true
  | NegInf, NegInf => true
  | NaN, NaN => true
  | _, _ => false
  end.

(** IEEE addition. *)
Definition jadd (a b : jsnum) : jsnum :=
  match a, b with
  | NaN, _ => NaN
  | _, NaN => NaN
  | Fin x, Fin y => Fin (x + y)
  | Fin _, PosInf => PosInf
  | Fin _, NegInf => NegInf
  | PosInf, Fin _ => PosInf
  | NegInf, Fin _ => NegInf
  | PosInf, PosInf => PosInf
  | NegInf, NegInf => NegInf
  | PosInf, NegInf => NaN
  | NegInf, PosInf => NaN
  end.

(** The product of an infinity of the given sign with the finite [x]. *)
Definition infTimes (positive : bool) (x : R) : jsnum :=
  if Req_dec_T x 0 then NaN
  else if Rlt_dec 0 x
       then (if positive then PosInf else NegInf)
       else (if positive then NegInf else PosInf).

(** IEEE multiplication. *)
Definition jmul (a b : jsnum) : jsnum :=
  match a, b with
  | NaN, _ => NaN
  | _, NaN => NaN
  | Fin x, Fin y => Fin (x * y)
  | Fin x, PosInf => infTimes true x
  | PosInf, Fin x => infTimes true x
  | Fin x, NegInf => infTimes false x
  | NegInf, Fin x => infTimes false x
  | PosInf, PosInf => PosInf
  | NegInf, NegInf => PosInf
  | PosInf, NegInf => NegInf
  | NegInf, PosInf => NegInf
  end.

(** Unary minus. *)
Definition jneg (a : jsnum) : jsnum :=
  match a with
  | Fin x => Fin (- x)
  | PosInf => NegInf
  | NegInf => PosInf
  | NaN => NaN
  end.

(** [a || d]: zero and NaN are falsy. *)
Definition jor (a d : jsnum) : jsnum :=
  match a with
  | Fin x => if Req_dec_T x 0 then d else a
  | NaN => d
  | _ => a
  end.

(** [a >= b]: false whenever an operand is NaN. *)
Definition jge (a b : jsnum) : bool :=
  match a, b with
  | NaN, _ => false
  | _, NaN => false
  | Fin x, Fin y => geb x y
  | PosInf, _ => true
  | NegInf, NegInf => true
  | NegInf, _ => false
  | Fin _, NegInf => true
  | Fin _, PosInf => false
  end.

End JS.

(* ------------------------------------------------------------------ *)
(** ** THREE.MathUtils *)

Module MathUtils.

(** [lerp(x, y, t) = (1 - t) * x + t * y] *)
Definition lerp (x y t : R) : R := (1 - t) * x + t * y.

(** Modelled from the spec: [THREE.MathUtils.damp] belongs to the three.js
    package, which is not among the sources.  The spec (section 4.2) gives
    [current' = target + (current - target) * exp(-rate * dt)] "or an
    equivalent numerically stable form"; three.js writes that form as
    [lerp(x, y, 1 - Math.exp(-lambda * dt))], which is what is embedded. *)
Definition damp (x y lambda dt : R) : R :=
  lerp x y (1 - exp (- lambda * dt)).

(** [clamp(value, min, max) = Math.max(min, Math.min(max, value))] *)
Definition clamp (value lo hi : R) : R := Rmax lo (Rmin hi value).

(** The weight [exp(-lambda*dt)] that [damp] leaves on the old value. *)
Definition decay (lambda dt : R) : R := exp (- lambda * dt).

(** [lerp] and [damp] on operands that may be non-finite; the weight
    [1 - Math.exp(-lambda * dt)] is computed from finite numbers. *)
Definition lerpJ (x y : JS.jsnum) (t : R) : JS.jsnum :=
  JS.jadd (JS.jmul (JS.Fin (1 - t)) x) (JS.jmul (JS.Fin t) y).

Definition dampJ (x y : JS.jsnum) (lambda dt : R) : JS.jsnum :=
  lerpJ x y (1 - exp (- lambda * dt)).

End MathUtils.

(* ------------------------------------------------------------------ *)
(** ** GeoProjector: [latLonToVec3] *)

Record Vector3 : Type := mkVector3 { vx : R; vy : R; vz : R }.

Definition DEG2RAD : R := PI / 180.

(** [src/utils/latLongToVec.js] *)
Module Utils.

Definition latLonToVec3 (lat lon radius altitude : R) : Vector3 :=
  let r := radius + altitude in
  let phi := (90 - lat) * DEG2RAD in
  let theta := (lon + 180) * DEG2RAD in
  let x := - r * sin phi * cos theta in
  let z := r * sin phi * sin theta in
  let y := r * cos phi in
  mkVector3 x y z.

End Utils.

(** The formula of the spec, section 4.1, word for word. *)
Definition project_reference (lat lon radius altitude : R) : Vector3 :=
  let r := radius + altitude in
  let phi := (90 - lat) * (PI / 180) in
  let theta := (lon + 180) * (PI / 180) in
  mkVector3 (- r * sin phi * cos theta) (r * cos phi) (r * sin phi * sin theta).

(** Squared distance from the centre of the globe. *)
Definition norm2 (v : Vector3) : R := vx v * vx v + vy v * vy v + vz v * vz v.

(** The [THREE.Vector3] methods the callout applies to its anchors, as
    three.js defines them: [length() = sqrt(x*x + y*y + z*z)],
    [multiplyScalar(s)] scales each component, [divideScalar(s)] is
    [multiplyScalar(1 / s)], and [normalize()] is
    [divideScalar(length() || 1)]. *)
Module Vec.

Definition length (v : Vector3) : R :=
  sqrt (vx v * vx v + vy v * vy v + vz v * vz v).

Definition multiplyScalar (v : Vector3) (k : R) : Vector3 :=
  mkVector3 (vx v * k) (vy v * k) (vz v * k).

Definition divideScalar (v : Vector3) (k : R) : Vector3 :=
  multiplyScalar v (1 / k).

Definition normalize (v : Vector3) : Vector3 :=
  divideScalar v (JS.or_default (length v) 1).

End Vec.

(* ------------------------------------------------------------------ *)
(** ** OverlayPhaseMachine: [src/components/loadingOverlay.jsx] *)

Module LoadingOverlay.

Import JS MathUtils.

(** The configuration surface (the props the machine reads; the colours and
    bar dimensions only reach the markup). *)
Record Props : Type := mkProps {
  delay : R;              (* seconds *)
  fade : R;               (* seconds *)
  unmountOnEnd : bool;
  smoothFactor : R;
  loadingCap : R;
  animateExposure : bool;
  exposureFrom : R;
  exposureTo : R
}.

(** The defaults of the parameter list. *)
Definition defaultProps : Props :=
  mkProps (6 / 10) (16 / 10) true 8 (96 / 100) false (6 / 10) 3.

(** ['loading' | 'hold' | 'fading' | 'done'] *)
Inductive Phase : Type := Loading | Hold | Fading | Done.

Definition phase_eqb (a b : Phase) : bool :=
  match a, b with
  | Loading, Loading | Hold, Hold | Fading, Fading | Done, Done => true
  | _, _ => false
  end.

(** Everything the component keeps between frames.  [active] and
    [progress] are the values of [useProgress()] at the last render, which is
    what the frame callback closes over; [deps] is the [active] the effect
    last ran with ([None] before the mount; [delay] is fixed configuration).
    A [setAlpha], [setDisplay] or [setDone] is taken to have been rendered
    before the next event. *)
Record State : Type := mkState {
  alpha : R;                    (* useState(1) *)
  done : bool;                  (* useState(false) *)
  phase : Phase;                (* useRef('loading') *)
  holdUntil : R;                (* useRef(0), milliseconds *)
  displayRef : R;               (* useRef(0) *)
  display : R;                  (* useState(0) *)
  active : bool;
  progress : R;
  deps : option bool;
  uAlpha : option R;            (* overlayMat.current.uniforms.uAlpha.value *)
  toneMappingExposure : R       (* gl.toneMappingExposure *)
}.

(** The state before the first render; [exposure0] is whatever the canvas
    was created with. *)
Definition initState (exposure0 : R) : State :=
  mkState 1 false Loading 0 0 0 false 0 None (Some 1) exposure0.

Definition set_phase (s : State) (ph : Phase) (hu : R) : State :=
  mkState (alpha s) (done s) ph hu (displayRef s) (display s)
          (active s) (progress s) (deps s) (uAlpha s) (toneMappingExposure s).

(** The body of the [useEffect] on [[active, delay]]; [now] is what
    [performance.now()] returns. *)
Definition effect (p : Props) (now : R) (s : State) : State :=
  let s1 :=
    if negb (active s) && phase_eqb (phase s) Loading
    then set_phase s Hold (now + delay p * 1000)
    else s in
  if active s1 && negb (phase_eqb (phase s1) Loading)
  then set_phase s1 Loading (holdUntil s1)
  else s1.

(** A render with the given [useProgress()] values: the closure values are
    replaced, and the effect runs on the mount and whenever [active] differs
    from the one it last ran with. *)
Definition render (p : Props) (act : bool) (prog now : R) (s : State) : State :=
  let changed :=
    match deps s with
    | None => true
    | Some a => negb (Bool.eqb a act)
    end in
  let s' := mkState (alpha s) (done s) (phase s) (holdUntil s) (displayRef s)
                    (display s) act prog (Some act) (uAlpha s)
                    (toneMappingExposure s) in
  if changed then effect p now s' else s'.

(** [k = (fade > 0 ? 3 / fade : 9999)] *)
Definition fadeRate (p : Props) : R :=
  if ltb 0 (fade p) then 3 / fade p else 9999.

(** [Math.min(loadingCap, Math.max(raw, displayRef.current))], or 1 once
    inactive. *)
Definition progressTarget (p : Props) (s : State) : R :=
  let raw := or_default (progress s) 0 / 100 in
  let targetWhileActive := Rmin (loadingCap p) (Rmax raw (displayRef s)) in
  if active s then targetWhileActive else 1.

(** The phase after the "phase transitions" block of the frame callback. *)
Definition phaseAfterHold (now : R) (s : State) : Phase :=
  if phase_eqb (phase s) Hold && geb now (holdUntil s) then Fading else phase s.

Definition targetAlpha (ph : Phase) : R :=
  if phase_eqb ph Loading || phase_eqb ph Hold then 1 else 0.

(** The [useFrame] callback.  The boolean says whether [setDone(true)] was
    called, which is the machine's "finished" signal. *)
Definition useFrame (p : Props) (dt now : R) (s : State) : State * bool :=
  if done s && unmountOnEnd p then (s, false) else
  (* progress smoothing *)
  let next := damp (displayRef s) (progressTarget p s) (smoothFactor p) dt in
  let display' := if abs_gt (next - display s) (1 / 10000) then next else display s in
  (* phase transitions *)
  let phase1 := phaseAfterHold now s in
  (* alpha animation *)
  let a := damp (alpha s) (targetAlpha phase1) (fadeRate p) dt in
  let uAlpha' := match uAlpha s with Some _ => Some a | None => None end in
  let alpha' := if abs_gt (a - alpha s) (1 / 10000) then a else alpha s in
  (* optional scene brightness ramp *)
  let exposure' :=
    if animateExposure p
    then lerp (exposureFrom p) (exposureTo p) (1 - a)
    else toneMappingExposure s in
  (* end condition *)
  let ends := phase_eqb phase1 Fading && ltb a (1 / 100) in
  let phase2 := if ends then Done else phase1 in
  let fired := ends && unmountOnEnd p in
  let done' := if fired then true else done s in
  (mkState alpha' done' phase2 (holdUntil s) next display'
           (active s) (progress s) (deps s) uAlpha' exposure',
   fired).

(** What happens to the component: it is rendered (first render = mount)
    with fresh [useProgress()] values, or the render loop ticks. *)
Inductive Event : Type :=
| Render (act : bool) (prog now : R)
| Frame (dt now : R).

Definition step (p : Props) (e : Event) (s : State) : State * bool :=
  match e with
  | Render act prog now => (render p act prog now s, false)
  | Frame dt now => useFrame p dt now s
  end.

(** Runs a trace and counts the [setDone(true)] calls. *)
Fixpoint run (p : Props) (es : list Event) (s : State) : State * nat :=
  match es with
  | [] => (s, 0%nat)
  | e :: es' =>
      let '(s1, f) := step p e s in
      let '(s2, n) := run p es' s1 in
      (s2, ((if f then 1 else 0) + n)%nat)
  end.


(** The default configuration with [unmountOnEnd={false}]. *)
Definition keepMountedProps : Props :=
  mkProps (6 / 10) (16 / 10) false 8 (96 / 100) false (6 / 10) 3.

(** Did the phase enter ['done']? *)
Definition entersDone (before after : Phase) : bool :=
  negb (phase_eqb before Done) && phase_eqb after Done.



(** The loaders report done at the mount; one long frame (a tab left in the
    background for a minute) then takes the overlay through the fade. *)
Definition finishTrace : list Event :=
  [Render false 100 0; Frame 60 60000].

(** After [finishTrace], something loads again for a second. *)
Definition reloadTrace : list Event :=
  finishTrace ++ [Render true 100 61000; Render false 100 62000].

(** The loaders report done at the mount, the bar runs toward 100% for half
    a second of the hold, then something starts loading again. *)
Definition reactivateTrace : list Event :=
  [Render false 100 0; Frame (1 / 2) 500; Render true 100 550].

(** The transition relation in the words of the spec, section 4.3, read
    against one event: the pair of the phase and the hold deadline that the
    event leaves behind.  A render whose [active] is the one the effect last
    saw changes nothing; a frame of an overlay that has finished with
    [unmountOnEnd] changes nothing; the deadline is in the clock's
    milliseconds. *)
Definition specTransition (p : Props) (e : Event) (s : State) : Phase * R :=
  match e with
  | Render act _ now =>
      if match deps s with Some a => Bool.eqb a act | None => false end
      then (phase s, holdUntil s)
      else
        match phase s, act with
        | Loading, false => (Hold, now + delay p * 1000)
        | Loading, true => (Loading, holdUntil s)
        | _, true => (Loading, holdUntil s)
        | ph, false => (ph, holdUntil s)
        end
  | Frame dt now =>
      if done s && unmountOnEnd p then (phase s, holdUntil s)
      else
        let a := alpha s * exp (- fadeRate p * dt) in
        match phase s with
        | Loading => (Loading, holdUntil s)
        | Hold =>
            if Rle_dec (holdUntil s) now
            then (if Rlt_dec a (1 / 100) then Done else Fading, holdUntil s)
            else (Hold, holdUntil s)
        | Fading => (if Rlt_dec a (1 / 100) then Done else Fading, holdUntil s)
        | Done => (Done, holdUntil s)
        end
  end.

(** Invariants of the visible quantities. *)
Definition alphaInUnit (s : State) : Prop :=
  0 <= alpha s <= 1 /\ (forall u, uAlpha s = Some u -> 0 <= u <= 1).

Definition displayInUnit (s : State) : Prop :=
  0 <= displayRef s <= 1 /\ 0 <= display s <= 1.

Definition copiesTrack (s : State) : Prop :=
  Rabs (displayRef s - display s) <= 1 / 10000
  /\ (forall u, uAlpha s = Some u -> Rabs (u - alpha s) <= 1 / 10000).

(** After the mount, the last rendered [active] is the one the effect ran
    with, and the phase is ['loading'] exactly while it is true. *)
Definition phaseMatchesActive (s : State) : Prop :=
  forall a, deps s = Some a ->
    active s = a /\ (phase s = Loading <-> a = true).

(** Loading since the mount: never faded, never finished. *)
Definition opaqueLoading (p : Props) (s : State) : Prop :=
  phase s = Loading /\ done s = false /\ alpha s = 1
  /\ active s = true /\ deps s = Some true
  /\ (forall u, uAlpha s = Some u -> u = 1).

(** Frames take a non-negative time; renders are unconstrained. *)
Definition forwardInTime (e : Event) : Prop :=
  match e with
  | Render _ _ _ => True
  | Frame dt _ => 0 <= dt
  end.

(** Every render still reports [active = true]; progress and frames are
    unconstrained. *)
Definition keepsLoading (e : Event) : Prop :=
  match e with
  | Render act _ _ => act = true
  | Frame _ _ => True
  end.

End LoadingOverlay.

(* ------------------------------------------------------------------ *)
(** ** CalloutExpansionMachine: [src/components/wonderLabel.jsx] *)

Module WonderCallout.

Import JS MathUtils.

(** The component's own copy of the projection. *)
Definition latLonToVec3 (lat lon radius altitude : R) : Vector3 :=
  let r := radius + altitude in
  let phi := (90 - lat) * DEG2RAD in
  let theta := (lon + 180) * DEG2RAD in
  let x := - r * sin phi * cos theta in
  let z := r * sin phi * sin theta in
  let y := r * cos phi in
  mkVector3 x y z.

(** *** Text metrics *)

Definition paddingX : R := 16 / 100.
Definition paddingY : R := 14 / 100.

(** [info.blockBounds] *)
Record BlockBounds : Type := mkBounds { minX : R; minY : R; maxX : R; maxY : R }.

(** [[w, h]] of the text block; [useState([0.6, 0.26])]. *)
Definition initialBaseSize : R * R := (6 / 10, 26 / 100).

(** [onTextSync]: the new [baseSize], unchanged without render info. *)
Definition onTextSync (info : option BlockBounds) (baseSize : R * R) : R * R :=
  match info with
  | None => baseSize
  | Some b => ((maxX b - minX b) + paddingX, (maxY b - minY b) + paddingY)
  end.

(** *** Image layout *)

(** [useState(16 / 9)] *)
Definition defaultAspect : jsnum := Fin (16 / 9).

(** [img.onload = () => setImgAspect(img.width / img.height)]: the aspect
    stored for an image of the given natural size in pixels. *)
Definition onload (width height : nat) : jsnum :=
  jdiv (Fin (INR width)) (Fin (INR height)).

(** The aspect held after the image effect: nothing is requested without an
    [imageSrc], and [loaded] is the natural size of the image once its
    [onload] has fired. *)
Definition aspectAfter (hasImageSrc : bool) (loaded : option (nat * nat))
    (imgAspect : jsnum) : jsnum :=
  if hasImageSrc
  then match loaded with
       | Some (w, h) => onload w h
       | None => imgAspect
       end
  else imgAspect.

Definition minImgW : R := 8 / 10.
Definition maxImgW : R := 1.
Definition gapY : R := 6 / 100.

Definition imgW (baseSize : R * R) : R := clamp (fst baseSize) minImgW maxImgW.

Definition imgH (baseSize : R * R) (imgAspect : jsnum) : jsnum :=
  jdiv (Fin (imgW baseSize)) imgAspect.

Definition imageTopY (baseSize : R * R) : R := - (snd baseSize / 2 + gapY).

Definition imgYFixed (baseSize : R * R) (imgAspect : jsnum) : jsnum :=
  jsub (Fin (imageTopY baseSize)) (jdiv (imgH baseSize imgAspect) (Fin 2)).

Definition bgPadX : R := 2 / 100.
Definition bgPadTop : R := 2 / 100.
Definition bgPadBottom : R := 5 / 100.

Definition bgBaseW (baseSize : R * R) : R := fst baseSize + bgPadX * 2.
Definition bgBaseH (baseSize : R * R) : R := snd baseSize + bgPadTop * 2.

(** *** Animated values and the scene objects they are written to *)

(** The part of the background mesh the component touches. *)
Record Mesh : Type := mkMesh { scale_x : R; scale_y : R; scale_z : R; position_y : R }.

(** The five refs, and the scene objects behind the object refs ([None]
    while a ref is not attached). *)
Record Refs : Type := mkRefs {
  open : R;                       (* useRef(0) *)
  imgOpacity : R;                 (* useRef(0) *)
  imgScale : R;                   (* useRef(0) *)
  titleScale : R;                 (* useRef(1) *)
  lineOpacity : R;                (* useRef(0.9) *)
  bgMesh : option Mesh;           (* bgMeshRef.current *)
  imgMaterialOpacity : option R;  (* imgRef.current?.material.opacity *)
  imgAnchorScale : option Vector3;(* imgAnchorRef.current.scale *)
  titleGroupScale : option Vector3;(* titleGroupRef.current.scale *)
  lineMaterialOpacity : option R; (* lineRef.current?.material.opacity *)
  pinOpacity : option R           (* pinMatRef.current.opacity *)
}.

Definition whenAttached {A B : Type} (r : option A) (v : B) : option B :=
  match r with Some _ => Some v | None => None end.

(** The "init state" effect, which React runs on the mount and after every
    render in which [imgYFixed] is not the value of the previous render. *)
Definition initEffect (s : Refs) : Refs :=
  mkRefs 0 0 0 1 (9 / 10)
         (whenAttached (bgMesh s)
            (mkMesh 1 1 1 0))
         (whenAttached (imgMaterialOpacity s) 0)
         (imgAnchorScale s)
         (whenAttached (titleGroupScale s) (mkVector3 1 1 1))
         (lineMaterialOpacity s)
         (pinOpacity s).

(** The refs of a freshly mounted callout: the initial ref values, the mesh
    at [position={[0, 0, -0.004]}] with unit scale, materials at the
    opacities of the markup. *)
Definition freshRefs : Refs :=
  mkRefs 0 0 0 1 (9 / 10)
         (Some (mkMesh 1 1 1 0)) (Some 1)
         (Some (mkVector3 1 1 1)) (Some (mkVector3 1 1 1))
         (Some (9 / 10)) (Some (9 / 10)).

(** What a render sees: the hover flag, the text block size and the aspect. *)
Record View : Type := mkView {
  hovered : bool;
  baseSize : R * R;
  imgAspect : jsnum
}.

(** The commit of a render: [prev] is the view of the previous render
    ([None] on the mount). *)
Definition commit (prev : option View) (v : View) (s : Refs) : Refs :=
  match prev with
  | None => initEffect s
  | Some v0 =>
      if same_value (imgYFixed (baseSize v0) (imgAspect v0))
                    (imgYFixed (baseSize v) (imgAspect v))
      then s
      else initEffect s
  end.

(** The targets of the background growth for an open amount [o]; [h] is the
    (finite) image height. *)
Definition extraH (h o : R) : R := (h + gapY + bgPadBottom) * o.

Definition scaleY (bs : R * R) (h o : R) : R :=
  (bgBaseH bs + extraH h o) / bgBaseH bs.

Definition neededW (bs : R * R) : R := Rmax (bgBaseW bs) (imgW bs + bgPadX * 2).

Definition widenedW (bs : R * R) (o : R) : R := lerp (bgBaseW bs) (neededW bs) o.

Definition scaleX (bs : R * R) (o : R) : R := widenedW bs o / bgBaseW bs.

(** The background block of the frame callback. *)
Definition growBackground (bs : R * R) (h o dt : R) (m : Mesh) : Mesh :=
  mkMesh (damp (or_default (scale_x m) 1) (scaleX bs o) 10 dt)
         (damp (or_default (scale_y m) 1) (scaleY bs h o) 10 dt)
         (scale_z m)
         (damp (or_default (position_y m) 0) (- (extraH h o / 2)) 10 dt).

(** The [useFrame] callback, for a render whose image height is the finite
    number [h]. *)
Definition useFrame (hov : bool) (bs : R * R) (h dt : R) (s : Refs) : Refs :=
  let targetOpen := if hov then 1 else 0 in
  let open' := damp (open s) targetOpen 6 dt in
  (* image fade + scale *)
  let imgOpacity' := damp (imgOpacity s) open' 10 dt in
  let imgScale' := damp (imgScale s) open' 10 dt in
  let sc := Rmax (1 / 10000) imgScale' in
  (* title scale *)
  let targetScale := if hov then 122 / 100 else 1 in
  let titleScale' := damp (titleScale s) targetScale 8 dt in
  (* leader line and pin fade *)
  let targetLineOpacity := if hov then 45 / 100 else 9 / 10 in
  let lineOpacity' := damp (lineOpacity s) targetLineOpacity 8 dt in
  mkRefs open' imgOpacity' imgScale' titleScale' lineOpacity'
         (option_map (growBackground bs h open' dt) (bgMesh s))
         (whenAttached (imgMaterialOpacity s) imgOpacity')
         (whenAttached (imgAnchorScale s) (mkVector3 sc sc 1))
         (whenAttached (titleGroupScale s)
            (mkVector3 titleScale' titleScale' titleScale'))
         (whenAttached (lineMaterialOpacity s) lineOpacity')
         (whenAttached (pinOpacity s) lineOpacity').

(** Panel size on screen: the collapsed shape times the mesh scale. *)
Definition panelWidth (bs : R * R) (m : Mesh) : R := bgBaseW bs * scale_x m.
Definition panelHeight (bs : R * R) (m : Mesh) : R := bgBaseH bs * scale_y m.

(** *** Anchors *)

(** [surface], [dir], [labelPos] and [ctrl] of the component. *)
Definition surface (lat lon radius dotOffset : R) : Vector3 :=
  latLonToVec3 lat lon radius dotOffset.

Definition dir (surface : Vector3) : Vector3 := Vec.normalize surface.

Definition labelPos (dir : Vector3) (radius labelDistance : R) : Vector3 :=
  Vec.multiplyScalar dir (radius + labelDistance).

Definition ctrl (dir : Vector3) (radius labelDistance bow : R) : Vector3 :=
  Vec.multiplyScalar dir (radius + labelDistance * (5 / 10 + bow)).

(** *** The rounded rectangle *)

(** The calls [makeRoundedRectShape] makes on its [THREE.Shape]. *)
Inductive PathCmd : Type :=
| MoveTo (x y : R)
| LineTo (x y : R)
| AbsArc (x y radius startAngle endAngle : R) (clockwise : bool).

Definition makeRoundedRectShape (w h r : R) : list PathCmd :=
  let hw := w / 2 in
  let hh := h / 2 in
  let cl := - hw + r in
  let cr := hw - r in
  let cb := - hh + r in
  let ct := hh - r in
  [ MoveTo cr hh;
    LineTo cl hh;
    AbsArc cl ct r (PI / 2) PI false;
    LineTo (- hw) cb;
    AbsArc cl cb r PI (PI * (15 / 10)) false;
    LineTo cr (- hh);
    AbsArc cr cb r (PI * (15 / 10)) (PI * 2) false;
    LineTo hw ct;
    AbsArc cr ct r 0 (PI / 2) false ].

(** Where a call starts drawing and where it leaves the pen; an arc runs
    from the point at [startAngle] to the point at [endAngle] of its circle.
    [pen] is the current point. *)
Definition cmdStart (pen : R * R) (c : PathCmd) : R * R :=
  match c with
  | MoveTo x y => (x, y)
  | LineTo _ _ => pen
  | AbsArc x y r a0 _ _ => (x + r * cos a0, y + r * sin a0)
  end.

Definition cmdEnd (c : PathCmd) : R * R :=
  match c with
  | MoveTo x y => (x, y)
  | LineTo x y => (x, y)
  | AbsArc x y r _ a1 _ => (x + r * cos a1, y + r * sin a1)
  end.

(** Every call starts at the current point (over the reals): the arcs join
    the lines before them. *)
Fixpoint continuous (pen : R * R) (cs : list PathCmd) : Prop :=
  match cs with
  | [] => True
  | c :: cs' => cmdStart pen c = pen /\ continuous (cmdEnd c) cs'
  end.

(** The point the pen is left at. *)
Fixpoint lastPoint (pen : R * R) (cs : list PathCmd) : R * R :=
  match cs with
  | [] => pen
  | c :: cs' => lastPoint (cmdEnd c) cs'
  end.

(** The corner radius of [bgShape]. *)
Definition bgCornerRadius (baseSize : R * R) (cornerRadius : R) : R :=
  Rmin cornerRadius (Rmin (bgBaseW baseSize) (bgBaseH baseSize) / 2 - 1 / 1000).

(** *** Runs of the callout *)

(** The frame callback over consecutive frames of one render (same hover
    flag, text block and image height). *)
Fixpoint frames (hov : bool) (bs : R * R) (h : R) (dts : list R) (s : Refs) : Refs :=
  match dts with
  | [] => s
  | dt :: dts' => frames hov bs h dts' (useFrame hov bs h dt s)
  end.

Fixpoint total (dts : list R) : R :=
  match dts with
  | [] => 0
  | dt :: dts' => dt + total dts'
  end.

(** The states of a mounted callout: the mount commits its first view on
    the fresh refs, a later render commits a new view, and between renders
    the frame callback runs with the hover flag, text block and (finite)
    image height of the current view. *)
Inductive Reachable : View -> Refs -> Prop :=
| R_mount : forall v, Reachable v (commit None v freshRefs)
| R_render : forall v s v',
    Reachable v s -> Reachable v' (commit (Some v) v' s)
| R_frame : forall v s h dt,
    Reachable v s ->
    imgH (baseSize v) (imgAspect v) = Fin h ->
    0 <= dt ->
    Reachable v (useFrame (hovered v) (baseSize v) h dt s).

(** The ranges of the animated values. *)
Definition inRange (s : Refs) : Prop :=
  0 <= open s <= 1 /\ 0 <= imgOpacity s <= 1 /\ 0 <= imgScale s <= 1
  /\ 1 <= titleScale s <= 122 / 100
  /\ 45 / 100 <= lineOpacity s <= 9 / 10.

(** *** The background block for any image height *)

(** The background mesh with numbers that may be non-finite. *)
Record MeshJ : Type := mkMeshJ {
  jscale_x : jsnum; jscale_y : jsnum; jscale_z : jsnum; jposition_y : jsnum
}.

Definition liftMesh (m : Mesh) : MeshJ :=
  mkMeshJ (Fin (scale_x m)) (Fin (scale_y m)) (Fin (scale_z m)) (Fin (position_y m)).

(** [extraH], [scaleY] and [scaleX] of the frame callback as the program
    computes them from the render's [imgH], which is [Infinity] or [NaN]
    after the load of an image with a zero natural dimension. *)
Definition extraHJ (imgH : jsnum) (o : R) : jsnum :=
  jmul (jadd (jadd imgH (Fin gapY)) (Fin bgPadBottom)) (Fin o).

Definition scaleYJ (bs : R * R) (imgH : jsnum) (o : R) : jsnum :=
  jdiv (jadd (Fin (bgBaseH bs)) (extraHJ imgH o)) (Fin (bgBaseH bs)).

Definition scaleXJ (bs : R * R) (o : R) : jsnum :=
  jdiv (Fin (widenedW bs o)) (Fin (bgBaseW bs)).

(** The background block of the frame callback (the body of
    [if (bgMeshRef.current)]) for any [imgH]. *)
Definition growBackgroundJ (bs : R * R) (imgH : jsnum) (o dt : R) (m : MeshJ) : MeshJ :=
  mkMeshJ (dampJ (jor (jscale_x m) (Fin 1)) (scaleXJ bs o) 10 dt)
          (dampJ (jor (jscale_y m) (Fin 1)) (scaleYJ bs imgH o) 10 dt)
          (jscale_z m)
          (dampJ (jor (jposition_y m) (Fin 0))
                 (jneg (jdiv (extraHJ imgH o) (Fin 2))) 10 dt).

(** What one frame does to the background mesh, for any [imgH]: the block
    runs with the open amount the frame has just computed.  The mesh is
    kept apart from [Refs] here because its numbers may be non-finite. *)
Definition frameBackground (hov : bool) (bs : R * R) (imgH : jsnum) (dt : R)
    (s : Refs) (m : option MeshJ) : option MeshJ :=
  let open' := damp (open s) (if hov then 1 else 0) 6 dt in
  option_map (growBackgroundJ bs imgH open' dt) m.

Definition panelWidthJ (bs : R * R) (m : MeshJ) : jsnum :=
  jmul (Fin (bgBaseW bs)) (jscale_x m).
Definition panelHeightJ (bs : R * R) (m : MeshJ) : jsnum :=
  jmul (Fin (bgBaseH bs)) (jscale_y m).

(** A text block as measured, and the size [onTextSync] stores for it. *)
Definition measuredBounds : BlockBounds := mkBounds 0 0 1 (1 / 10).
Definition measuredSize : R * R := onTextSync (Some measuredBounds) initialBaseSize.

(** *** The points of an outline *)

(** The points a call draws, with the pen at [pen]: a [lineTo] draws the
    segment from the pen to its end point, an [absarc] the points of its
    circle at the angles from [startAngle] to [endAngle] (counter-clockwise
    unless [clockwise]). *)
Definition onCmd (pen : R * R) (c : PathCmd) (q : R * R) : Prop :=
  match c with
  | MoveTo x y => q = (x, y)
  | LineTo x y =>
      exists t, 0 <= t <= 1
                /\ q = (fst pen + t * (x - fst pen), snd pen + t * (y - snd pen))
  | AbsArc x y r a0 a1 cw =>
      exists a, (if cw then a1 <= a <= a0 else a0 <= a <= a1)
                /\ q = (x + r * cos a, y + r * sin a)
  end.

Fixpoint onPath (pen : R * R) (cs : list PathCmd) (q : R * R) : Prop :=
  match cs with
  | [] => False
  | c :: cs' => onCmd pen c q \/ onPath (cmdEnd c) cs' q
  end.

End WonderCallout.

(* ------------------------------------------------------------------ *)
(** ** EarthSystem: the frame callback of [App.jsx] *)

Module EarthSystem.

(** [Vector3.setFromSpherical(s)], as three.js defines it on a
    [Spherical(radius, phi, theta)]. *)
Definition setFromSpherical (radius phi theta : R) : Vector3 :=
  let sinPhiRadius := sin phi * radius in
  mkVector3 (sinPhiRadius * sin theta) (cos phi * radius) (sinPhiRadius * cos theta).

(** What the callback writes: the planet's [rotation.y] (when the ref is
    attached) and the sun direction. *)
Record Scene : Type := mkScene {
  rotation_y : option R;       (* planetRef.current.rotation.y *)
  sunDir : Vector3
}.

(** The [useFrame] callback; [phi] and [theta] are the control values. *)
Definition useFrame (phi theta delta : R) (sc : Scene) : Scene :=
  mkScene (option_map (fun y => y + delta * (1 / 10)) (rotation_y sc))
          (setFromSpherical 1 phi theta).

Fixpoint frames (phi theta : R) (deltas : list R) (sc : Scene) : Scene :=
  match deltas with
  | [] => sc
  | d :: ds => frames phi theta ds (useFrame phi theta d sc)
  end.

Fixpoint total (deltas : list R) : R :=
  match deltas with
  | [] => 0
  | d :: ds => d + total ds
  end.

End EarthSystem.

(* ================================================================== *)
(** * Properties *)

Import JS MathUtils.

(** ** The [||] default *)

Lemma or_default_zero (x : R) : or_default x 0 = x.
Proof. unfold or_default; destruct (Req_dec_T x 0); lra. Qed.

Lemma or_default_nonzero (x d : R) : x <> 0 -> or_default x d = x.
Proof. unfold or_default; destruct (Req_dec_T x 0); intros; lra. Qed.

(** ** The damping primitive *)

Lemma decay_pos (lambda dt : R) : 0 < decay lambda dt.
Proof. apply exp_pos. Qed.

Lemma decay_le_1 (lambda dt : R) :
  0 <= lambda -> 0 <= dt -> decay lambda dt <= 1.
Proof.
  intros Hl Hd. unfold decay.
  destruct (Req_dec (lambda * dt) 0) as [E | N].
  - replace (- lambda * dt) with 0 by lra. rewrite exp_0. lra.
  - rewrite <- exp_0. left. apply exp_increasing.
    assert (0 <= lambda * dt) by (apply Rmult_le_pos; assumption). lra.
Qed.

Lemma decay_lt_1 (lambda dt : R) :
  0 < lambda -> 0 < dt -> decay lambda dt < 1.
Proof.
  intros Hl Hd. unfold decay. rewrite <- exp_0. apply exp_increasing.
  assert (0 < lambda * dt) by (apply Rmult_lt_0_compat; assumption). lra.
Qed.

Lemma decay_plus (lambda a b : R) :
  decay lambda (a + b) = decay lambda a * decay lambda b.
Proof. unfold decay. rewrite <- exp_plus. f_equal. ring. Qed.

(** [exp(-x) < 1 / (1 + x)] for positive [x], from [1 + x < exp x]. *)
Lemma decay_bound (lambda dt : R) :
  0 < lambda * dt -> decay lambda dt < / (1 + lambda * dt).
Proof.
  intros H. unfold decay.
  replace (- lambda * dt) with (- (lambda * dt)) by ring.
  rewrite exp_Ropp.
  apply Rinv_lt_contravar.
  - apply Rmult_lt_0_compat; [lra | apply exp_pos].
  - apply exp_ineq1. lra.
Qed.

Lemma damp_closed (x y lambda dt : R) :
  damp x y lambda dt = y + (x - y) * decay lambda dt.
Proof. unfold damp, lerp, decay. ring. Qed.

Lemma damp_compose (x y lambda a b : R) :
  damp (damp x y lambda a) y lambda b = damp x y lambda (a + b).
Proof. rewrite !damp_closed, decay_plus. ring. Qed.

(** [damp] is a convex combination for a non-negative rate and duration: the
    result lies between the old value and the target. *)
Lemma damp_between_up (x y lambda dt : R) :
  0 <= lambda -> 0 <= dt -> x <= y ->
  x <= damp x y lambda dt <= y.
Proof.
  intros Hl Hd Hxy. rewrite damp_closed.
  pose proof (decay_pos lambda dt). pose proof (decay_le_1 lambda dt Hl Hd).
  split; nra.
Qed.

Lemma damp_between_down (x y lambda dt : R) :
  0 <= lambda -> 0 <= dt -> y <= x ->
  y <= damp x y lambda dt <= x.
Proof.
  intros Hl Hd Hxy. rewrite damp_closed.
  pose proof (decay_pos lambda dt). pose proof (decay_le_1 lambda dt Hl Hd).
  split; nra.
Qed.

Lemma damp_ge (x y lambda dt lo : R) :
  0 <= lambda -> 0 <= dt -> lo <= x -> lo <= y -> lo <= damp x y lambda dt.
Proof.
  intros Hl Hd Hx Hy.
  destruct (Rle_dec x y) as [Hxy | Hxy].
  - pose proof (damp_between_up x y lambda dt Hl Hd Hxy). lra.
  - assert (y <= x) as Hyx by lra.
    pose proof (damp_between_down x y lambda dt Hl Hd Hyx). lra.
Qed.

Lemma damp_le (x y lambda dt hi : R) :
  0 <= lambda -> 0 <= dt -> x <= hi -> y <= hi -> damp x y lambda dt <= hi.
Proof.
  intros Hl Hd Hx Hy.
  destruct (Rle_dec x y) as [Hxy | Hxy].
  - pose proof (damp_between_up x y lambda dt Hl Hd Hxy). lra.
  - assert (y <= x) as Hyx by lra.
    pose proof (damp_between_down x y lambda dt Hl Hd Hyx). lra.
Qed.

Lemma lerp_ge (a b t : R) : 0 <= t -> a <= b -> a <= lerp a b t.
Proof. intros Ht Hab. unfold lerp. nra. Qed.

Lemma clamp_bounds (v lo hi : R) : lo <= hi -> lo <= clamp v lo hi <= hi.
Proof.
  intros H. unfold clamp. split.
  - apply Rmax_l.
  - apply Rmax_lub; [assumption | apply Rmin_l].
Qed.

(** ** GeoProjector *)

Lemma latLonToVec3_copies_agree (lat lon radius altitude : R) :
  WonderCallout.latLonToVec3 lat lon radius altitude
  = Utils.latLonToVec3 lat lon radius altitude.
Proof. reflexivity. Qed.

Lemma latLonToVec3_on_sphere (lat lon radius altitude : R) :
  norm2 (Utils.latLonToVec3 lat lon radius altitude)
  = (radius + altitude) * (radius + altitude).
Proof.
  unfold norm2, Utils.latLonToVec3; simpl.
  set (phi := (90 - lat) * DEG2RAD). set (theta := (lon + 180) * DEG2RAD).
  pose proof (sin2_cos2 phi) as Hp. pose proof (sin2_cos2 theta) as Ht.
  unfold Rsqr in Hp, Ht.
  set (r := radius + altitude).
  replace (- r * sin phi * cos theta * (- r * sin phi * cos theta)
           + r * cos phi * (r * cos phi)
           + r * sin phi * sin theta * (r * sin phi * sin theta))
    with (r * r * (sin phi * sin phi * (sin theta * sin theta + cos theta * cos theta)
                   + cos phi * cos phi)) by ring.
  rewrite Ht. replace (sin phi * sin phi * 1 + cos phi * cos phi)
    with (sin phi * sin phi + cos phi * cos phi) by ring.
  rewrite Hp. ring.
Qed.

Lemma latLonToVec3_equator_origin (r : R) :
  Utils.latLonToVec3 0 0 r 0 = mkVector3 r 0 0.
Proof.
  unfold Utils.latLonToVec3, DEG2RAD.
  replace ((90 - 0) * (PI / 180)) with (PI / 2) by field.
  replace ((0 + 180) * (PI / 180)) with PI by field.
  rewrite sin_PI2, cos_PI2, sin_PI, cos_PI.
  f_equal; ring.
Qed.

(** C4: the projection of both copies of [latLonToVec3] is the reference
    formula of the spec ([r = radius + altitude], [phi = (90 - lat) * pi/180],
    [theta = (lon + 180) * pi/180], [x = -r sin phi cos theta],
    [y = r cos phi], [z = r sin phi sin theta]); at the pole,
    [project(90, lon, r, 0) = (0, r, 0)] for every [r] and [lon]; and
    [project(0, 0, r, 0)] lies on the sphere of radius [r] (it is the point
    [(r, 0, 0)], at squared distance [r * r] from the centre). *)
Theorem C4_projection_reference_pole_sphere :
  (forall lat lon radius altitude,
      Utils.latLonToVec3 lat lon radius altitude
      = project_reference lat lon radius altitude
      /\ WonderCallout.latLonToVec3 lat lon radius altitude
         = project_reference lat lon radius altitude)
  /\ (forall r lon, Utils.latLonToVec3 90 lon r 0 = mkVector3 0 r 0)
  /\ (forall r, norm2 (Utils.latLonToVec3 0 0 r 0) = r * r
                /\ Utils.latLonToVec3 0 0 r 0 = mkVector3 r 0 0).
Proof.
  split; [| split].
  - intros. split; reflexivity.
  - intros r lon. unfold Utils.latLonToVec3, DEG2RAD.
    replace ((90 - 90) * (PI / 180)) with 0 by (unfold Rdiv; ring).
    rewrite sin_0, cos_0. f_equal; ring.
  - intros r. split.
    + rewrite latLonToVec3_on_sphere. ring.
    + apply latLonToVec3_equator_origin.
Qed.

(** C1: the damping update is the closed form
    [current' = target + (current - target) * exp(-rate * dt)], so one update
    with [dt = a + b] equals, in real arithmetic, the update with [dt = a]
    followed by the update with [dt = b] toward the same target (for every
    rate and durations, in particular [rate > 0] and [a, b >= 0]); and this
    is the update of both machines: the overlay's smoothed progress (unless
    the frame callback has returned early) and the callout's open amount. *)
Theorem C1_damp_closed_form_composes :
  (forall current target rate dt,
      damp current target rate dt
      = target + (current - target) * exp (- rate * dt))
  /\ (forall current target rate a b,
      damp current target rate (a + b)
      = damp (damp current target rate a) target rate b)
  /\ (forall p dt now s,
      LoadingOverlay.displayRef (fst (LoadingOverlay.useFrame p dt now s))
      = if LoadingOverlay.done s && LoadingOverlay.unmountOnEnd p
        then LoadingOverlay.displayRef s
        else LoadingOverlay.progressTarget p s
             + (LoadingOverlay.displayRef s - LoadingOverlay.progressTarget p s)
               * exp (- LoadingOverlay.smoothFactor p * dt))
  /\ (forall hov bs h dt s,
      WonderCallout.open (WonderCallout.useFrame hov bs h dt s)
      = (if hov then 1 else 0)
        + (WonderCallout.open s - (if hov then 1 else 0)) * exp (- 6 * dt)).
Proof.
  repeat split.
  - intros. apply damp_closed.
  - intros. symmetry. apply damp_compose.
  - intros. unfold LoadingOverlay.useFrame.
    destruct (LoadingOverlay.done s && LoadingOverlay.unmountOnEnd p); simpl.
    + reflexivity.
    + apply damp_closed.
  - intros. unfold WonderCallout.useFrame; simpl. apply damp_closed.
Qed.

(* ------------------------------------------------------------------ *)
(** ** CalloutExpansionMachine *)

Section Callout.

Import WonderCallout.

(** C3: one frame of the callout moves the five damped quantities toward
    their hover-dependent targets at fixed rates: [openAmount] toward 1 when
    hovered, else 0, at rate 6; [imageOpacity] and [imageScale] toward the
    [openAmount] this same frame has just produced, at rate 10; [titleScale]
    toward 1.22 when hovered, else 1.0, at rate 8; [lineOpacity] toward 0.45
    when hovered, else 0.9, at rate 8. *)
Theorem C3_callout_frame_targets_and_rates :
  forall (hov : bool) (bs : R * R) (h dt : R) (s : Refs),
    let s' := useFrame hov bs h dt s in
    let openNow := damp (open s) (if hov then 1 else 0) 6 dt in
    open s' = openNow
    /\ imgOpacity s' = damp (imgOpacity s) openNow 10 dt
    /\ imgScale s' = damp (imgScale s) openNow 10 dt
    /\ titleScale s' = damp (titleScale s) (if hov then 122 / 100 else 1) 8 dt
    /\ lineOpacity s' = damp (lineOpacity s) (if hov then 45 / 100 else 9 / 10) 8 dt
    /\ imgOpacity s' = open s' + (imgOpacity s - open s') * exp (- 10 * dt)
    /\ imgScale s' = open s' + (imgScale s - open s') * exp (- 10 * dt).
Proof.
  intros hov bs h dt s s' openNow. subst s' openNow.
  unfold useFrame; cbn [open imgOpacity imgScale titleScale lineOpacity].
  repeat split; try reflexivity; apply damp_closed.
Qed.

(** The open amount stays in [[0, 1]]. *)
Lemma open_in_unit_interval (hov : bool) (bs : R * R) (h dt : R) (s : Refs) :
  0 <= dt -> 0 <= open s <= 1 ->
  0 <= open (useFrame hov bs h dt s) <= 1.
Proof.
  intros Hdt [H0 H1]. unfold useFrame; cbn [open].
  split.
  - apply damp_ge; try lra. destruct hov; lra.
  - apply damp_le; try lra. destruct hov; lra.
Qed.

Lemma imgW_bounds (bs : R * R) : 8 / 10 <= imgW bs <= 1.
Proof. unfold imgW, minImgW, maxImgW. apply clamp_bounds. lra. Qed.

Lemma jdiv_fin (x y : R) : y <> 0 -> jdiv (Fin x) (Fin y) = Fin (x / y).
Proof. intros H. unfold jdiv. destruct (Req_dec_T y 0); [contradiction | reflexivity]. Qed.

Lemma jdiv_pos_zero (x : R) : 0 < x -> jdiv (Fin x) (Fin 0) = PosInf.
Proof.
  intros H. unfold jdiv.
  destruct (Req_dec_T 0 0); [| lra].
  destruct (Req_dec_T x 0); [lra |].
  destruct (Rlt_dec 0 x); [reflexivity | lra].
Qed.

Lemma jdiv_zero_zero : jdiv (Fin 0) (Fin 0) = NaN.
Proof.
  unfold jdiv. destruct (Req_dec_T 0 0); [| lra]. reflexivity.
Qed.

Lemma same_value_true (a b : jsnum) : same_value a b = true <-> a = b.
Proof.
  destruct a, b; simpl; try (split; [discriminate | congruence]);
    try (split; reflexivity).
  destruct (Req_dec_T x x0); split; intros; congruence.
Qed.

Lemma INR_pos_of_lt (n : nat) : (0 < n)%nat -> 0 < INR n.
Proof. intros H. apply lt_0_INR. exact H. Qed.

(** The height the program derives from an aspect it can hold (the default,
    or the quotient stored by [onload]) is never negative when finite. *)
Lemma imgH_nonneg (bs : R * R) (asp : jsnum) (h : R) :
  asp = defaultAspect \/ (exists w ht, asp = onload w ht) ->
  imgH bs asp = Fin h -> 0 <= h.
Proof.
  pose proof (imgW_bounds bs) as HW.
  intros [-> | (w & ht & ->)] E.
  - unfold imgH, defaultAspect in E. rewrite jdiv_fin in E by lra.
    inversion E. apply Rlt_le, Rdiv_lt_0_compat; lra.
  - unfold imgH, onload in E.
    destruct ht as [| ht'].
    + (* natural height 0 *)
      destruct w as [| w'].
      * change (INR 0) with 0 in E. rewrite jdiv_zero_zero in E. discriminate.
      * rewrite jdiv_pos_zero in E by (apply INR_pos_of_lt; lia).
        simpl in E. inversion E. lra.
    + assert (0 < INR (S ht')) as Hh by (apply INR_pos_of_lt; lia).
      rewrite jdiv_fin in E by lra.
      destruct w as [| w'].
      * change (INR 0) with 0 in E.
        replace (0 / INR (S ht')) with 0 in E by (unfold Rdiv; ring).
        rewrite jdiv_pos_zero in E by lra. discriminate.
      * assert (0 < INR (S w')) as Hw by (apply INR_pos_of_lt; lia).
        assert (0 < INR (S w') / INR (S ht')) as Ha
            by (apply Rdiv_lt_0_compat; assumption).
        rewrite jdiv_fin in E by lra.
        inversion E. apply Rlt_le, Rdiv_lt_0_compat; [lra | exact Ha].
Qed.

(** A measured text block gives a positive collapsed panel. *)
Lemma measured_base_positive (b : BlockBounds) (prev : R * R) :
  minX b <= maxX b -> minY b <= maxY b ->
  0 < bgBaseW (onTextSync (Some b) prev) /\ 0 < bgBaseH (onTextSync (Some b) prev).
Proof.
  intros Hx Hy. unfold bgBaseW, bgBaseH, onTextSync, paddingX, paddingY,
    bgPadX, bgPadTop; simpl. lra.
Qed.

Lemma extraH_nonneg (h o : R) : 0 <= h -> 0 <= o -> 0 <= extraH h o.
Proof.
  intros Hh Ho. unfold extraH, gapY, bgPadBottom.
  apply Rmult_le_pos; lra.
Qed.

Lemma scaleY_ge_1 (bs : R * R) (h o : R) :
  0 < bgBaseH bs -> 0 <= h -> 0 <= o -> 1 <= scaleY bs h o.
Proof.
  intros Hb Hh Ho. unfold scaleY.
  pose proof (extraH_nonneg h o Hh Ho) as He.
  apply (Rmult_le_reg_r (bgBaseH bs)); [assumption |].
  unfold Rdiv. rewrite Rmult_assoc, Rinv_l by lra. lra.
Qed.

Lemma widenedW_ge_base (bs : R * R) (o : R) :
  0 <= o -> bgBaseW bs <= widenedW bs o.
Proof.
  intros Ho. unfold widenedW. apply lerp_ge; [assumption |].
  unfold neededW. apply Rmax_l.
Qed.

Lemma scaleX_ge_1 (bs : R * R) (o : R) :
  0 < bgBaseW bs -> 0 <= o -> 1 <= scaleX bs o.
Proof.
  intros Hb Ho. unfold scaleX.
  pose proof (widenedW_ge_base bs o Ho) as Hw.
  apply (Rmult_le_reg_r (bgBaseW bs)); [assumption |].
  unfold Rdiv. rewrite Rmult_assoc, Rinv_l by lra. lra.
Qed.

(** *** The background block on finite and on non-finite heights *)

Lemma jadd_NaN_r (a : jsnum) : jadd a NaN = NaN.
Proof. destruct a; reflexivity. Qed.

Lemma jmul_NaN_r (a : jsnum) : jmul a NaN = NaN.
Proof. destruct a; reflexivity. Qed.

Lemma jor_fin (x d : R) : jor (Fin x) (Fin d) = Fin (or_default x d).
Proof. unfold jor, or_default. destruct (Req_dec_T x 0); reflexivity. Qed.

Lemma dampJ_fin (x y lambda dt : R) :
  dampJ (Fin x) (Fin y) lambda dt = Fin (damp x y lambda dt).
Proof. reflexivity. Qed.

Lemma extraHJ_fin (h o : R) : extraHJ (Fin h) o = Fin (extraH h o).
Proof. reflexivity. Qed.

Lemma scaleYJ_fin (bs : R * R) (h o : R) :
  bgBaseH bs <> 0 -> scaleYJ bs (Fin h) o = Fin (scaleY bs h o).
Proof. intros H. unfold scaleYJ. rewrite extraHJ_fin. cbn [jadd]. apply jdiv_fin. exact H. Qed.

Lemma scaleXJ_fin (bs : R * R) (o : R) :
  bgBaseW bs <> 0 -> scaleXJ bs o = Fin (scaleX bs o).
Proof. intros H. unfold scaleXJ. apply jdiv_fin. exact H. Qed.

(** On a finite image height the vertical part of the block over [jsnum]
    is the block over the reals. *)
Lemma growBackgroundJ_fin_vertical (bs : R * R) (h o dt : R) (m : Mesh) :
  bgBaseH bs <> 0 ->
  jscale_y (growBackgroundJ bs (Fin h) o dt (liftMesh m))
  = Fin (scale_y (growBackground bs h o dt m))
  /\ jposition_y (growBackgroundJ bs (Fin h) o dt (liftMesh m))
     = Fin (position_y (growBackground bs h o dt m)).
Proof.
  intros HB.
  unfold growBackgroundJ, growBackground, liftMesh;
    cbn [jscale_y jposition_y scale_y position_y].
  rewrite scaleYJ_fin by exact HB. rewrite extraHJ_fin, !jor_fin.
  rewrite jdiv_fin by lra. cbn [jneg]. rewrite !dampJ_fin.
  split; reflexivity.
Qed.

(** On a finite image height the whole block over [jsnum] is the block over
    the reals. *)
Lemma growBackgroundJ_fin (bs : R * R) (h o dt : R) (m : Mesh) :
  bgBaseW bs <> 0 -> bgBaseH bs <> 0 ->
  growBackgroundJ bs (Fin h) o dt (liftMesh m)
  = liftMesh (growBackground bs h o dt m).
Proof.
  intros HW HB.
  unfold growBackgroundJ, growBackground, liftMesh;
    cbn [jscale_x jscale_y jscale_z jposition_y scale_x scale_y scale_z position_y].
  rewrite scaleYJ_fin by exact HB. rewrite scaleXJ_fin by exact HW.
  rewrite extraHJ_fin, !jor_fin.
  rewrite jdiv_fin by lra. cbn [jneg]. rewrite !dampJ_fin.
  reflexivity.
Qed.

Lemma jge_fin_true (x y : R) : y <= x -> jge (Fin x) (Fin y) = true.
Proof.
  intros H. cbn [jge]. unfold geb. destruct (Rle_dec y x); [reflexivity | contradiction].
Qed.

(** C8 (as the code has it): for a measured base size (so that the
    collapsed panel has positive width and height) and an open amount in
    [[0, 1]], provided the image height the program derives from its aspect
    (the default, or the quotient stored by [onload]) is a finite number:
    the height target
    [baseHeight + (imageHeight + gap + bottomPadding) * openAmount] is at
    least [baseHeight], the width target
    [lerp(baseWidth, max(baseWidth, imageWidth + 2 * sidePadding), openAmount)]
    is at least [baseWidth], the program's own (possibly non-finite)
    computation of the targets and of the frame gives these finite numbers,
    and the damping step of the frame keeps the panel at least as wide and
    as high as the collapsed base whenever it was so before the frame. *)
Theorem C8_panel_never_below_base :
  forall (hov : bool) (bs : R * R) (asp : jsnum) (h dt : R) (s : Refs) (m : Mesh),
    0 < bgBaseW bs -> 0 < bgBaseH bs ->
    asp = defaultAspect \/ (exists w ht, asp = onload w ht) ->
    imgH bs asp = Fin h ->
    0 <= dt ->
    0 <= open s <= 1 ->
    bgMesh s = Some m ->
    bgBaseW bs <= panelWidth bs m -> bgBaseH bs <= panelHeight bs m ->
    (forall o, 0 <= o <= 1 ->
        bgBaseH bs <= bgBaseH bs + extraH h o
        /\ bgBaseH bs * scaleY bs h o = bgBaseH bs + extraH h o
        /\ bgBaseW bs <= widenedW bs o
        /\ bgBaseW bs * scaleX bs o = widenedW bs o
        /\ extraHJ (imgH bs asp) o = Fin (extraH h o)
        /\ scaleYJ bs (imgH bs asp) o = Fin (scaleY bs h o)
        /\ scaleXJ bs o = Fin (scaleX bs o))
    /\ exists m',
        bgMesh (useFrame hov bs h dt s) = Some m'
        /\ frameBackground hov bs (imgH bs asp) dt s (Some (liftMesh m))
           = Some (liftMesh m')
        /\ bgBaseW bs <= panelWidth bs m'
        /\ bgBaseH bs <= panelHeight bs m'
        /\ jge (panelWidthJ bs (liftMesh m')) (Fin (bgBaseW bs)) = true
        /\ jge (panelHeightJ bs (liftMesh m')) (Fin (bgBaseH bs)) = true.
Proof.
  intros hov bs asp h dt s m HW HH Hasp Himg Hdt Hopen Hm HpW HpH.
  pose proof (imgH_nonneg bs asp h Hasp Himg) as Hh.
  rewrite Himg.
  split.
  - intros o [Ho0 Ho1].
    pose proof (extraH_nonneg h o Hh Ho0).
    pose proof (widenedW_ge_base bs o Ho0).
    split; [lra |]. split; [unfold scaleY; field; lra |].
    split; [lra |]. split; [unfold scaleX; field; lra |].
    split; [apply extraHJ_fin |].
    split; [apply scaleYJ_fin; lra | apply scaleXJ_fin; lra].
  - pose proof (open_in_unit_interval hov bs h dt s Hdt Hopen) as [Ho0 Ho1].
    unfold frameBackground.
    unfold useFrame in *; cbn [open bgMesh] in *.
    set (o' := damp (open s) (if hov then 1 else 0) 6 dt) in *.
    rewrite Hm; cbn [option_map].
    eexists; split; [reflexivity |].
    split; [rewrite growBackgroundJ_fin by lra; reflexivity |].
    assert (bgBaseW bs <= panelWidth bs (growBackground bs h o' dt m)
            /\ bgBaseH bs <= panelHeight bs (growBackground bs h o' dt m))
      as [HrW HrH].
    { unfold panelWidth, panelHeight in *; cbn [growBackground scale_x scale_y].
      assert (1 <= scale_x m) as Hsx by nra.
      assert (1 <= scale_y m) as Hsy by nra.
      rewrite !or_default_nonzero by lra.
      pose proof (scaleX_ge_1 bs o' HW Ho0) as HX.
      pose proof (scaleY_ge_1 bs h o' HH Hh Ho0) as HY.
      assert (1 <= damp (scale_x m) (scaleX bs o') 10 dt) as H1
          by (apply damp_ge; lra).
      assert (1 <= damp (scale_y m) (scaleY bs h o') 10 dt) as H2
          by (apply damp_ge; lra).
      split; nra. }
    split; [exact HrW |]. split; [exact HrH |].
    unfold panelWidthJ, panelHeightJ, liftMesh; cbn [jscale_x jscale_y jmul].
    split; apply jge_fin_true; assumption.
Qed.

(** A run of the claim C8 on a measured text block, a hovered callout and
    a 60 Hz frame. *)
Lemma C8_panel_never_below_base_witness :
  exists m',
    bgMesh (useFrame true measuredSize (imgW measuredSize / (16 / 9)) (1 / 60)
              freshRefs) = Some m'
    /\ frameBackground true measuredSize (imgH measuredSize defaultAspect) (1 / 60)
         freshRefs (Some (liftMesh (mkMesh 1 1 1 0)))
       = Some (liftMesh m')
    /\ bgBaseW measuredSize <= panelWidth measuredSize m'
    /\ bgBaseH measuredSize <= panelHeight measuredSize m'
    /\ jge (panelWidthJ measuredSize (liftMesh m')) (Fin (bgBaseW measuredSize)) = true
    /\ jge (panelHeightJ measuredSize (liftMesh m')) (Fin (bgBaseH measuredSize)) = true.
Proof.
  refine (proj2 (C8_panel_never_below_base true measuredSize defaultAspect
                   (imgW measuredSize / (16 / 9)) (1 / 60)
                   freshRefs (mkMesh 1 1 1 0) _ _ _ _ _ _ _ _ _)).
  - apply measured_base_positive; simpl; lra.
  - apply measured_base_positive; simpl; lra.
  - left; reflexivity.
  - unfold imgH, defaultAspect. apply jdiv_fin. lra.
  - lra.
  - simpl; lra.
  - reflexivity.
  - unfold panelWidth; simpl. lra.
  - unfold panelHeight; simpl. lra.
Defined.

Lemma onload_zero_width : onload 0 1 = Fin 0.
Proof.
  unfold onload. simpl INR. rewrite jdiv_fin by lra.
  f_equal. unfold Rdiv. ring.
Qed.

(** C8 as stated fails for a measured base size and open amount 0 once an
    image of natural width zero has loaded: the image height is [Infinity],
    the height target [(Infinity + gap + padding) * 0] is NaN, and the frame
    of the resting (not hovered) callout writes NaN to [scale.y] and
    [position.y], so that the panel height is not at least the base
    height. *)
Lemma C8_zero_width_image_gives_nan_panel :
  0 < bgBaseW measuredSize /\ 0 < bgBaseH measuredSize
  /\ open freshRefs = 0
  /\ imgH measuredSize (aspectAfter true (Some (0%nat, 1%nat)) defaultAspect)
     = PosInf
  /\ extraHJ (imgH measuredSize
                (aspectAfter true (Some (0%nat, 1%nat)) defaultAspect))
             (open freshRefs)
     = NaN
  /\ exists mj,
      frameBackground false measuredSize
        (imgH measuredSize (aspectAfter true (Some (0%nat, 1%nat)) defaultAspect))
        (1 / 60) freshRefs (Some (liftMesh (mkMesh 1 1 1 0)))
      = Some mj
      /\ jscale_y mj = NaN
      /\ jposition_y mj = NaN
      /\ jge (panelHeightJ measuredSize mj) (Fin (bgBaseH measuredSize)) = false.
Proof.
  assert (imgH measuredSize (aspectAfter true (Some (0%nat, 1%nat)) defaultAspect)
          = PosInf) as EH.
  { unfold aspectAfter. rewrite onload_zero_width. unfold imgH.
    apply jdiv_pos_zero. pose proof (imgW_bounds measuredSize). lra. }
  assert (forall o, o = 0 -> extraHJ PosInf o = NaN) as EX.
  { intros o ->. unfold extraHJ. cbn [jadd jmul]. unfold infTimes.
    destruct (Req_dec_T 0 0); [reflexivity | lra]. }
  destruct (measured_base_positive measuredBounds initialBaseSize) as [HW HB];
    [unfold measuredBounds; simpl; lra | unfold measuredBounds; simpl; lra |].
  fold measuredSize in HW, HB.
  split; [exact HW |]. split; [exact HB |]. split; [reflexivity |].
  split; [exact EH |]. rewrite EH.
  split; [apply EX; reflexivity |].
  unfold frameBackground. cbn [option_map open freshRefs].
  eexists. split; [reflexivity |].
  assert (damp 0 0 6 (1 / 60) = 0) as E0 by (rewrite damp_closed; ring).
  unfold growBackgroundJ, panelHeightJ; cbn [jscale_y jposition_y].
  unfold scaleYJ. rewrite (EX _ E0).
  cbn [jadd jdiv jneg]. unfold dampJ, lerpJ.
  rewrite !jmul_NaN_r, !jadd_NaN_r, !jmul_NaN_r.
  repeat split; reflexivity.
Qed.

(** *** Image layout *)

Lemma imgW_initial : imgW initialBaseSize = 8 / 10.
Proof.
  unfold imgW, initialBaseSize, clamp, minImgW, maxImgW; simpl.
  rewrite Rmin_right by lra. rewrite Rmax_left by lra. reflexivity.
Qed.

(** C9 (as the code has it): until an image has loaded, and when there is
    no image source, the aspect is the default 16:9 and the image height
    [imgW / (16/9)] is a positive real; for a loaded image whose natural
    width and height are both non-zero the stored aspect is the non-zero
    real [width / height], no division has a zero divisor, and the image
    height [imgW / aspect] is a real number. *)
Theorem C9_image_height_defined_for_nonzero_size :
  forall (bs : R * R) (w ht : nat),
    (0 < w)%nat -> (0 < ht)%nat ->
    aspectAfter true None defaultAspect = Fin (16 / 9)
    /\ aspectAfter false (Some (w, ht)) defaultAspect = Fin (16 / 9)
    /\ imgH bs defaultAspect = Fin (imgW bs / (16 / 9))
    /\ 0 < imgW bs / (16 / 9)
    /\ INR ht <> 0
    /\ aspectAfter true (Some (w, ht)) defaultAspect = Fin (INR w / INR ht)
    /\ INR w / INR ht <> 0
    /\ imgH bs (aspectAfter true (Some (w, ht)) defaultAspect)
       = Fin (imgW bs / (INR w / INR ht))
    /\ 0 < imgW bs / (INR w / INR ht).
Proof.
  intros bs w ht Hw Hh.
  pose proof (imgW_bounds bs) as HW.
  pose proof (INR_pos_of_lt w Hw) as Hw'.
  pose proof (INR_pos_of_lt ht Hh) as Hh'.
  assert (0 < INR w / INR ht) as Ha by (apply Rdiv_lt_0_compat; assumption).
  assert (aspectAfter true (Some (w, ht)) defaultAspect = Fin (INR w / INR ht)) as E.
  { unfold aspectAfter, onload. apply jdiv_fin. lra. }
  split; [reflexivity |]. split; [reflexivity |].
  split; [unfold imgH, defaultAspect; apply jdiv_fin; lra |].
  split; [apply Rdiv_lt_0_compat; lra |].
  split; [lra |]. split; [exact E |]. split; [lra |].
  split.
  - rewrite E. unfold imgH. apply jdiv_fin. lra.
  - apply Rdiv_lt_0_compat; lra.
Qed.

Lemma C9_image_height_defined_witness :
  imgH initialBaseSize (aspectAfter true (Some (4%nat, 3%nat)) defaultAspect)
  = Fin (imgW initialBaseSize / (INR 4 / INR 3)).
Proof.
  refine (proj1 (proj2 (proj2 (proj2 (proj2 (proj2 (proj2 (proj2
            (C9_image_height_defined_for_nonzero_size
               initialBaseSize 4 3 _ _)))))))));
    lia.
Defined.

(** C9 as stated fails for a loaded image of natural width zero: the stored
    aspect is 0, and the image height [imgW / 0] is [Infinity]; with both
    natural dimensions zero the aspect and the height are NaN. *)
Lemma C9_zero_width_image_divides_by_zero :
  aspectAfter true (Some (0%nat, 1%nat)) defaultAspect = Fin 0
  /\ imgH initialBaseSize (aspectAfter true (Some (0%nat, 1%nat)) defaultAspect)
     = PosInf
  /\ ~ finite (imgH initialBaseSize
                 (aspectAfter true (Some (0%nat, 1%nat)) defaultAspect))
  /\ imgH initialBaseSize (aspectAfter true (Some (0%nat, 0%nat)) defaultAspect)
     = NaN.
Proof.
  assert (aspectAfter true (Some (0%nat, 1%nat)) defaultAspect = Fin 0) as E.
  { unfold aspectAfter, onload. simpl INR. rewrite jdiv_fin by lra.
    f_equal. unfold Rdiv. ring. }
  assert (imgH initialBaseSize (Fin 0) = PosInf) as E'.
  { unfold imgH. rewrite imgW_initial. apply jdiv_pos_zero. lra. }
  repeat split.
  - exact E.
  - rewrite E. exact E'.
  - rewrite E, E'. simpl. tauto.
  - unfold aspectAfter, onload. simpl INR. rewrite jdiv_zero_zero.
    reflexivity.
Qed.

(** *** The init-state effect *)

Lemma imgYFixed_fin (bs : R * R) (a : R) :
  a <> 0 ->
  imgYFixed bs (Fin a) = Fin (imageTopY bs - imgW bs / a / 2).
Proof.
  intros Ha. unfold imgYFixed, imgH.
  rewrite jdiv_fin by assumption. rewrite jdiv_fin by lra. reflexivity.
Qed.

(** A render that leaves [imgYFixed] where it was leaves the refs alone,
    whatever else about the layout has changed. *)
Lemma commit_same_position (v0 v : View) (s : Refs) :
  imgYFixed (baseSize v0) (imgAspect v0) = imgYFixed (baseSize v) (imgAspect v) ->
  commit (Some v0) v s = s.
Proof.
  intros E. unfold commit.
  apply same_value_true in E. rewrite E. reflexivity.
Qed.

(** C10: when a render computes an [imgYFixed] (the image's vertical
    position, a function of the measured text block and of the aspect
    ratio) that differs from the one of the previous render, the effect
    resets the five animated quantities to [openAmount = 0],
    [imageOpacity = 0], [imageScale = 0], [titleScale = 1],
    [lineOpacity = 0.9] and the panel, when attached, to unit scale and zero
    vertical offset; the hover flag of the render plays no part, so this
    happens under the pointer too. *)
Theorem C10_layout_change_resets_animation :
  forall (v0 v : View) (s : Refs),
    imgYFixed (baseSize v0) (imgAspect v0) <> imgYFixed (baseSize v) (imgAspect v) ->
    let s' := commit (Some v0) v s in
    open s' = 0 /\ imgOpacity s' = 0 /\ imgScale s' = 0
    /\ titleScale s' = 1 /\ lineOpacity s' = 9 / 10
    /\ (forall m, bgMesh s = Some m -> bgMesh s' = Some (mkMesh 1 1 1 0))
    /\ s' = commit (Some v0) (mkView true (baseSize v) (imgAspect v)) s.
Proof.
  intros v0 v s Hne s'. subst s'. unfold commit; cbn [baseSize imgAspect].
  destruct (same_value (imgYFixed (baseSize v0) (imgAspect v0))
                       (imgYFixed (baseSize v) (imgAspect v))) eqn:E.
  - apply same_value_true in E. contradiction.
  - unfold initEffect; cbn [open imgOpacity imgScale titleScale lineOpacity bgMesh].
    repeat split; try reflexivity.
    intros m Hm. rewrite Hm. reflexivity.
Qed.

(** The aspect of a 2:1 image arrives while the callout is hovered and
    half open. *)
Lemma C10_layout_change_resets_witness :
  let s := useFrame true initialBaseSize (9 / 20) 1 freshRefs in
  let s' := commit (Some (mkView true initialBaseSize defaultAspect))
                   (mkView true initialBaseSize (onload 2 1)) s in
  open s' = 0 /\ bgMesh s' = Some (mkMesh 1 1 1 0).
Proof.
  intros s s'.
  assert (imgYFixed initialBaseSize defaultAspect
          <> imgYFixed initialBaseSize (onload 2 1)) as Hne.
  { unfold defaultAspect, onload. simpl INR.
    rewrite (jdiv_fin (1 + 1) 1) by lra.
    rewrite !imgYFixed_fin by lra.
    rewrite imgW_initial. intros E. inversion E as [E']. lra. }
  pose proof (C10_layout_change_resets_animation
                (mkView true initialBaseSize defaultAspect)
                (mkView true initialBaseSize (onload 2 1)) s Hne)
    as (Ho & _ & _ & _ & _ & Hm & _).
  split.
  - exact Ho.
  - apply (Hm (growBackground initialBaseSize (9 / 20)
                 (damp 0 1 6 1) 1 (mkMesh 1 1 1 0))).
    reflexivity.
Defined.

End Callout.

(* ------------------------------------------------------------------ *)
(** ** OverlayPhaseMachine *)

Section Overlay.

Import LoadingOverlay.

Lemma phase_eqb_eq (a b : Phase) : phase_eqb a b = true <-> a = b.
Proof. destruct a, b; simpl; split; intros; congruence. Qed.

Lemma damp_to_zero (x k dt : R) : damp x 0 k dt = x * exp (- k * dt).
Proof. rewrite damp_closed. unfold decay. ring. Qed.

Lemma useFrame_latched (p : Props) (dt now : R) (s : State) :
  done s && unmountOnEnd p = true -> useFrame p dt now s = (s, false).
Proof. intros H. unfold useFrame. rewrite H. reflexivity. Qed.

(** The phase and the deadline after an event are those of the transition
    relation. *)
Lemma step_phase_spec (p : Props) (e : Event) (s : State) :
  (phase (fst (step p e s)), holdUntil (fst (step p e s))) = specTransition p e s.
Proof.
  destruct e as [act prog now | dt now]; cbn [step fst specTransition].
  - unfold render.
    destruct (deps s) as [a |].
    + destruct (Bool.eqb a act); cbn [negb]; [reflexivity |].
      unfold effect; cbn [active phase holdUntil].
      destruct (phase s), act; reflexivity.
    + unfold effect; cbn [active phase holdUntil].
      destruct (phase s), act; reflexivity.
  - unfold useFrame.
    destruct (done s && unmountOnEnd p); cbn [fst]; [reflexivity |].
    cbn [phase holdUntil]. unfold phaseAfterHold.
    destruct (phase s) eqn:Eph; cbn [phase_eqb andb].
    + reflexivity.
    + unfold geb. destruct (Rle_dec (holdUntil s) now); cbn [phase_eqb andb].
      * unfold targetAlpha; cbn [phase_eqb orb]. rewrite damp_to_zero.
        unfold ltb. destruct (Rlt_dec _ (1 / 100)); reflexivity.
      * reflexivity.
    + unfold targetAlpha; cbn [phase_eqb orb]. rewrite damp_to_zero.
      unfold ltb. destruct (Rlt_dec _ (1 / 100)); reflexivity.
    + reflexivity.
Qed.

(** C2 (as the code has it): every event leaves the phase and the hold
    deadline that the transition relation [specTransition] prescribes.  A
    render in which [active] has changed (or the mount) moves [loading] to
    [hold] when [active] is false, setting the deadline to
    [now + delay * 1000] milliseconds, and moves any other phase, [fading]
    and [done] included, to [loading] when [active] is true; a frame moves
    [hold] to [fading] when [now >= holdUntil], and [fading] (also when just
    entered) to [done] when the computed alpha [alpha * exp(-k * dt)] is
    below 0.01, unless the overlay has finished with [unmountOnEnd], in which
    case the frame changes nothing; nothing else changes the phase. *)
Theorem C2_phase_follows_transition_relation :
  forall (p : Props) (e : Event) (s : State),
    (phase (fst (step p e s)), holdUntil (fst (step p e s)))
    = specTransition p e s.
Proof. exact step_phase_spec. Qed.

(** *** What an event leaves untouched *)

Lemma render_keeps (p : Props) (act : bool) (prog now : R) (s : State) :
  let s' := render p act prog now s in
  alpha s' = alpha s /\ done s' = done s /\ displayRef s' = displayRef s
  /\ display s' = display s /\ active s' = act /\ progress s' = prog
  /\ deps s' = Some act.
Proof.
  unfold render, effect.
  destruct (match deps s with None => true | Some a => negb (Bool.eqb a act) end);
    cbn [active phase].
  - destruct (negb act && phase_eqb (phase s) Loading);
      cbn [set_phase active phase];
      match goal with
      | |- context [if ?c then _ else _] => destruct c
      end; cbn; repeat split; reflexivity.
  - cbn; repeat split; reflexivity.
Qed.

Lemma useFrame_keeps (p : Props) (dt now : R) (s : State) :
  let s' := fst (useFrame p dt now s) in
  active s' = active s /\ progress s' = progress s /\ deps s' = deps s.
Proof.
  unfold useFrame. destruct (done s && unmountOnEnd p); cbn; repeat split; reflexivity.
Qed.

Lemma useFrame_displayRef (p : Props) (dt now : R) (s : State) :
  displayRef (fst (useFrame p dt now s))
  = if done s && unmountOnEnd p then displayRef s
    else damp (displayRef s) (progressTarget p s) (smoothFactor p) dt.
Proof.
  unfold useFrame. destruct (done s && unmountOnEnd p); reflexivity.
Qed.

(** *** The finished signal *)

(** [setDone(true)] is called exactly by the events that take the phase into
    ['done'] under [unmountOnEnd]. *)
Lemma step_fired_spec (p : Props) (e : Event) (s : State) :
  snd (step p e s)
  = unmountOnEnd p && entersDone (phase s) (phase (fst (step p e s))).
Proof.
  destruct e as [act prog now | dt now]; cbn [step fst snd].
  - pose proof (step_phase_spec p (Render act prog now) s) as H.
    cbn [step fst] in H. apply (f_equal fst) in H. cbn [fst] in H.
    rewrite H. unfold specTransition, entersDone.
    destruct (match deps s with Some a => Bool.eqb a act | None => false end);
      destruct (phase s), act, (unmountOnEnd p); reflexivity.
  - unfold useFrame.
    destruct (done s && unmountOnEnd p); cbn [fst snd phase].
    + unfold entersDone. destruct (phase s), (unmountOnEnd p); reflexivity.
    + unfold entersDone, phaseAfterHold.
      destruct (phase s); cbn [phase_eqb andb negb];
        try (destruct (geb now (holdUntil s)); cbn [phase_eqb andb negb]);
        try (destruct (ltb _ (1 / 100)));
        destruct (unmountOnEnd p); reflexivity.
Qed.

Lemma step_done (p : Props) (e : Event) (s : State) :
  done (fst (step p e s)) = done s || snd (step p e s).
Proof.
  destruct e as [act prog now | dt now]; cbn [step fst snd].
  - pose proof (render_keeps p act prog now s) as (_ & H & _).
    rewrite H. destruct (done s); reflexivity.
  - unfold useFrame.
    destruct (done s) eqn:Ed, (unmountOnEnd p) eqn:Eu; cbn [andb fst snd done];
      rewrite ?Ed; try reflexivity;
      match goal with
      | |- context [if ?c then true else _] => destruct c
      end; reflexivity.
Qed.

Lemma run_never_fires_when_kept (p : Props) (es : list Event) (s : State) :
  unmountOnEnd p = false -> snd (run p es s) = 0%nat.
Proof.
  intros Hu. revert s. induction es as [| e es IH]; intros s; cbn [run].
  - reflexivity.
  - destruct (step p e s) as [s1 f] eqn:E.
    pose proof (step_fired_spec p e s) as Hf. rewrite E, Hu in Hf. cbn in Hf.
    specialize (IH s1). destruct (run p es s1) as [s2 n]. cbn [snd] in *.
    subst. reflexivity.
Qed.

Lemma run_never_fires_again (p : Props) (es : list Event) (s : State) :
  unmountOnEnd p = true -> done s = true -> snd (run p es s) = 0%nat.
Proof.
  intros Hu. revert s. induction es as [| e es IH]; intros s Hd; cbn [run].
  - reflexivity.
  - destruct (step p e s) as [s1 f] eqn:E.
    assert (f = false) as ->.
    { destruct e as [act prog now | dt now]; cbn [step] in E.
      - inversion E. reflexivity.
      - rewrite useFrame_latched in E by (rewrite Hd, Hu; reflexivity).
        inversion E. reflexivity. }
    pose proof (step_done p e s) as Hd1. rewrite E, Hd in Hd1. cbn in Hd1.
    specialize (IH s1 Hd1). destruct (run p es s1) as [s2 n]. cbn [snd] in *.
    subst. reflexivity.
Qed.

Lemma run_fires_at_most_once (p : Props) (es : list Event) (s : State) :
  (snd (run p es s) <= if unmountOnEnd p then 1 else 0)%nat.
Proof.
  destruct (unmountOnEnd p) eqn:Hu.
  - revert s. induction es as [| e es IH]; intros s; cbn [run].
    + cbn. lia.
    + destruct (step p e s) as [s1 f] eqn:E.
      destruct f.
      * pose proof (step_done p e s) as Hd1. rewrite E in Hd1. cbn in Hd1.
        rewrite orb_true_r in Hd1.
        pose proof (run_never_fires_again p es s1 Hu Hd1) as H0.
        destruct (run p es s1) as [s2 n]. cbn [snd] in *. lia.
      * specialize (IH s1). destruct (run p es s1) as [s2 n]. cbn [snd] in *. lia.
  - rewrite run_never_fires_when_kept by assumption. lia.
Qed.

(** C7 (as the code has it): the finished signal, the call [setDone(true)],
    is made by exactly those events that take the phase into [done] while
    [unmountOnEnd] is set; on every input trace it is made at most once when
    [unmountOnEnd] is set, hence never again after the frame that made it,
    and never at all when [unmountOnEnd] is false. *)
Theorem C7_finished_fires_at_most_once_when_unmounting :
  (forall (p : Props) (e : Event) (s : State),
      snd (step p e s)
      = unmountOnEnd p && entersDone (phase s) (phase (fst (step p e s))))
  /\ (forall (p : Props) (es : list Event) (s : State),
      (snd (run p es s) <= if unmountOnEnd p then 1 else 0)%nat).
Proof.
  split.
  - exact step_fired_spec.
  - exact run_fires_at_most_once.
Qed.

(** *** Concrete traces *)

Lemma fadeRate_default : fadeRate defaultProps = 3 / (16 / 10).
Proof.
  unfold fadeRate, defaultProps; cbn [fade].
  unfold ltb. destruct (Rlt_dec 0 (16 / 10)); [reflexivity | lra].
Qed.

Lemma fadeRate_keepMounted : fadeRate keepMountedProps = 3 / (16 / 10).
Proof.
  unfold fadeRate, keepMountedProps; cbn [fade].
  unfold ltb. destruct (Rlt_dec 0 (16 / 10)); [reflexivity | lra].
Qed.

(** A minute of fading at the default rate leaves less than 1% of alpha. *)
Lemma minute_fade_small : 1 * exp (- (3 / (16 / 10)) * 60) < 1 / 100.
Proof.
  pose proof (decay_bound (3 / (16 / 10)) 60) as H. unfold decay in H.
  assert (0 < 3 / (16 / 10) * 60) as Hp by lra.
  specialize (H Hp).
  assert (/ (1 + 3 / (16 / 10) * 60) < 1 / 100) as Hb.
  { replace (1 + 3 / (16 / 10) * 60) with (227 / 2) by field.
    replace (/ (227 / 2)) with (2 / 227) by field. lra. }
  lra.
Qed.

(** The state in which [finishTrace] leaves a configuration with the
    default timings: phase [done], and [done] set iff [unmountOnEnd]. *)
Lemma finishTrace_result (p : Props) :
  delay p = 6 / 10 -> fadeRate p = 3 / (16 / 10) ->
  let r := run p finishTrace (initState 3) in
  phase (fst r) = Done
  /\ done (fst r) = unmountOnEnd p
  /\ deps (fst r) = Some false
  /\ snd r = (if unmountOnEnd p then 1 else 0)%nat.
Proof.
  intros Hdelay Hrate.
  unfold finishTrace. cbn [run].
  pose proof (step_phase_spec p (Render false 100 0) (initState 3)) as H1.
  pose proof (render_keeps p false 100 0 (initState 3))
    as (Hal1 & Hd1 & _ & _ & _ & _ & Hdeps1).
  cbn [step fst snd] in *.
  remember (render p false 100 0 (initState 3)) as s1 eqn:Es1.
  cbn [specTransition initState deps phase] in H1.
  cbn [initState alpha done] in Hal1, Hd1.
  injection H1 as Hph1 Hhu1.
  destruct (useFrame p 60 60000 s1) as [s2 f] eqn:E2.
  pose proof (step_phase_spec p (Frame 60 60000) s1) as H2.
  pose proof (step_fired_spec p (Frame 60 60000) s1) as Hf2.
  pose proof (step_done p (Frame 60 60000) s1) as Hd2.
  pose proof (useFrame_keeps p 60 60000 s1) as (_ & _ & Hdeps2).
  cbn [step] in H2, Hf2, Hd2. rewrite E2 in *. cbn [fst snd] in *.
  unfold specTransition in H2.
  rewrite Hd1, Hph1, Hhu1, Hal1, Hrate, Hdelay in H2. cbn [andb] in H2.
  destruct (Rle_dec (0 + 6 / 10 * 1000) 60000) as [_ | N]; [| exfalso; lra].
  destruct (Rlt_dec (1 * exp (- (3 / (16 / 10)) * 60)) (1 / 100)) as [_ | N];
    [| exfalso; apply N; exact minute_fade_small].
  injection H2 as Hph2 Hhu2.
  rewrite Hph1, Hph2 in Hf2. unfold entersDone in Hf2. cbn in Hf2.
  rewrite andb_true_r in Hf2.
  rewrite Hd1, Hf2 in Hd2. cbn in Hd2.
  cbn [fst snd]. split; [exact Hph2 |]. split; [exact Hd2 |].
  split; [congruence |].
  rewrite Hf2. destruct (unmountOnEnd p); reflexivity.
Qed.

(** C7 as stated fails with [unmountOnEnd = false]: the phase enters [done]
    on the second event of [finishTrace] and the finished signal is never
    given. *)
Lemma C7_no_finished_signal_when_kept_mounted :
  phase (fst (run keepMountedProps finishTrace (initState 3))) = Done
  /\ snd (run keepMountedProps finishTrace (initState 3)) = 0%nat.
Proof.
  pose proof (finishTrace_result keepMountedProps eq_refl fadeRate_keepMounted)
    as (Hph & _ & _ & Hn).
  split; [exact Hph | exact Hn].
Qed.

Lemma run_app (p : Props) (es1 es2 : list Event) (s : State) :
  run p (es1 ++ es2) s
  = (fst (run p es2 (fst (run p es1 s))),
     (snd (run p es1 s) + snd (run p es2 (fst (run p es1 s))))%nat).
Proof.
  revert s. induction es1 as [| e es1 IH]; intros s; cbn [app run fst snd].
  - destruct (run p es2 s); reflexivity.
  - destruct (step p e s) as [s1 f]. rewrite IH.
    destruct (run p es1 s1) as [s2 n]; cbn [fst snd].
    f_equal. lia.
Qed.

(** C2 as stated fails once the overlay has finished with [unmountOnEnd]
    (the default): after [reloadTrace] the phase is [hold] with the deadline
    at 62600 ms, and a frame at 70000 ms leaves it in [hold], because the
    frame callback returns before the phase logic.  (The deadline is also
    [now + delay * 1000], not [now + delay].) *)
Lemma C2_hold_outlives_deadline_after_done :
  let s := fst (run defaultProps reloadTrace (initState 3)) in
  phase s = Hold
  /\ holdUntil s = 62000 + 6 / 10 * 1000
  /\ holdUntil s <= 70000
  /\ phase (fst (step defaultProps (Frame (1 / 60) 70000) s)) = Hold.
Proof.
  unfold reloadTrace. rewrite run_app. cbn [fst].
  pose proof (finishTrace_result defaultProps eq_refl fadeRate_default)
    as (Hph & Hd & Hdeps & _).
  remember (fst (run defaultProps finishTrace (initState 3))) as s2 eqn:Es2.
  cbn [unmountOnEnd defaultProps] in Hd.
  cbn [run step fst snd].
  (* something loads again *)
  pose proof (step_phase_spec defaultProps (Render true 100 61000) s2) as H3.
  pose proof (render_keeps defaultProps true 100 61000 s2)
    as (_ & Hd3 & _ & _ & _ & _ & Hdeps3).
  cbn [step fst] in H3.
  remember (render defaultProps true 100 61000 s2) as s3 eqn:Es3.
  unfold specTransition in H3. rewrite Hdeps, Hph in H3. cbn [Bool.eqb] in H3.
  pose proof (f_equal fst H3) as Hph3. cbn [fst] in Hph3.
  (* and is done a second later *)
  pose proof (step_phase_spec defaultProps (Render false 100 62000) s3) as H4.
  pose proof (render_keeps defaultProps false 100 62000 s3)
    as (_ & Hd4 & _ & _ & _ & _ & _).
  cbn [step fst] in H4.
  remember (render defaultProps false 100 62000 s3) as s4 eqn:Es4.
  unfold specTransition in H4. rewrite Hdeps3, Hph3 in H4. cbn [Bool.eqb] in H4.
  pose proof (f_equal fst H4) as Hph4. pose proof (f_equal snd H4) as Hhu4.
  cbn [fst snd delay defaultProps] in Hph4, Hhu4.
  split; [exact Hph4 |]. split; [exact Hhu4 |]. split; [rewrite Hhu4; lra |].
  rewrite useFrame_latched; [exact Hph4 |].
  rewrite Hd4, Hd3, Hd. reflexivity.
Qed.

(** *** Progress smoothing *)

(** C5 (as the code has it): on a frame where [active] is true (and the
    smoothing rate and the frame time are not negative), the smoothed
    progress does not decrease, whatever the raw progress does, provided it
    is at most [loadingCap] before the frame, and then it stays at most
    [loadingCap]; when it is above [loadingCap], as after an inactive period
    that drove it toward 1, the frame moves it down toward [loadingCap]. *)
Theorem C5_progress_monotone_up_to_cap :
  forall (p : Props) (dt now : R) (s : State),
    0 <= smoothFactor p -> 0 <= dt -> active s = true ->
    let d' := displayRef (fst (useFrame p dt now s)) in
    (displayRef s <= loadingCap p -> displayRef s <= d' <= loadingCap p)
    /\ (loadingCap p <= displayRef s -> loadingCap p <= d' <= displayRef s).
Proof.
  intros p dt now s Hl Hdt Hact d'. subst d'.
  rewrite useFrame_displayRef.
  destruct (done s && unmountOnEnd p).
  - split; intros; lra.
  - unfold progressTarget. rewrite Hact.
    set (raw := or_default (progress s) 0 / 100).
    split; intros H.
    + assert (displayRef s <= Rmin (loadingCap p) (Rmax raw (displayRef s))) as Ht
          by (apply Rmin_glb; [assumption | apply Rmax_r]).
      pose proof (Rmin_l (loadingCap p) (Rmax raw (displayRef s))) as Hc.
      pose proof (damp_between_up _ _ _ _ Hl Hdt Ht). lra.
    + assert (Rmin (loadingCap p) (Rmax raw (displayRef s)) = loadingCap p) as ->.
      { apply Rmin_left. pose proof (Rmax_r raw (displayRef s)). lra. }
      apply damp_between_down; assumption.
Qed.

Lemma C5_progress_monotone_witness :
  let s := render defaultProps true 40 0 (initState 3) in
  displayRef s <= displayRef (fst (useFrame defaultProps (1 / 60) 16 s))
  <= loadingCap defaultProps.
Proof.
  intros s.
  refine (proj1 (C5_progress_monotone_up_to_cap defaultProps (1 / 60) 16 s
                   _ _ _) _).
  - simpl; lra.
  - lra.
  - reflexivity.
  - simpl; lra.
Defined.

(** Half a second at rate 8 takes the bar from 0 past 96%. *)
Lemma half_second_passes_cap : 96 / 100 < damp 0 1 8 (1 / 2).
Proof.
  rewrite damp_closed. unfold decay.
  replace (Ropp 8 * (1 / 2)) with (Ropp 4) by field.
  rewrite exp_Ropp.
  assert (3 / 2 < exp (1 / 2)) as Hh.
  { pose proof (exp_ineq1 (1 / 2)). lra. }
  assert (exp 4 = exp (1 / 2) * exp (1 / 2) * (exp (1 / 2) * exp (1 / 2))
                  * (exp (1 / 2) * exp (1 / 2) * (exp (1 / 2) * exp (1 / 2)))) as E4.
  { rewrite <- !exp_plus. f_equal. field. }
  set (e := exp (1 / 2)) in *.
  assert (9 / 4 < e * e) as H2 by nra.
  assert (81 / 16 < e * e * (e * e)) as H4 by nra.
  assert (25 < exp 4) as H8 by (rewrite E4; nra).
  assert (/ exp 4 < / 25) as Hi
      by (apply Rinv_lt_contravar; [nra | assumption]).
  lra.
Qed.

(** C5 as stated fails after an inactive period: with the default
    configuration, [reactivateTrace] leaves a state with [active = true],
    raw progress 100 as on the frame before, and a smoothed progress above
    the cap; the next frame lowers it. *)
Lemma C5_progress_drops_after_reactivation :
  let s2 := fst (run defaultProps [Render false 100 0; Frame (1 / 2) 500]
                   (initState 3)) in
  let s := fst (run defaultProps reactivateTrace (initState 3)) in
  progress s2 = 100 /\ progress s = 100 /\ active s = true
  /\ displayRef (fst (useFrame defaultProps (1 / 60) 567 s)) < displayRef s.
Proof.
  unfold reactivateTrace. cbn [run step fst snd].
  pose proof (render_keeps defaultProps false 100 0 (initState 3))
    as (_ & Hd1 & Hr1 & _ & Ha1 & Hp1 & _).
  remember (render defaultProps false 100 0 (initState 3)) as s1 eqn:Es1.
  cbn [initState done displayRef] in Hd1, Hr1.
  pose proof (useFrame_displayRef defaultProps (1 / 2) 500 s1) as Hr2.
  pose proof (useFrame_keeps defaultProps (1 / 2) 500 s1) as (_ & Hp2 & _).
  pose proof (step_done defaultProps (Frame (1 / 2) 500) s1) as Hd2.
  pose proof (step_fired_spec defaultProps (Frame (1 / 2) 500) s1) as Hf2.
  pose proof (step_phase_spec defaultProps (Frame (1 / 2) 500) s1) as Hph2.
  pose proof (step_phase_spec defaultProps (Render false 100 0) (initState 3)) as Hph1.
  cbn [step fst snd] in *. rewrite <- Es1 in Hph1.
  cbn [specTransition initState deps phase delay defaultProps] in Hph1.
  pose proof (f_equal fst Hph1) as Hp1'. pose proof (f_equal snd Hph1) as Hh1'.
  cbn [fst snd] in Hp1', Hh1'.
  destruct (useFrame defaultProps (1 / 2) 500 s1) as [s2 f2] eqn:E2.
  cbn [fst snd] in *.
  unfold specTransition in Hph2. rewrite Hd1, Hp1', Hh1' in Hph2.
  cbn [andb] in Hph2.
  destruct (Rle_dec (0 + 6 / 10 * 1000) 500) as [N | _]; [exfalso; lra |].
  pose proof (f_equal fst Hph2) as Hp2'. cbn [fst] in Hp2'.
  rewrite Hp1', Hp2' in Hf2. cbn in Hf2. rewrite Hf2, Hd1 in Hd2. cbn in Hd2.
  rewrite Hd1 in Hr2. cbn [andb] in Hr2.
  unfold progressTarget in Hr2. rewrite Ha1, Hr1 in Hr2.
  cbn [smoothFactor defaultProps] in Hr2.
  pose proof (render_keeps defaultProps true 100 550 s2)
    as (_ & Hd3 & Hr3 & _ & Ha3 & Hp3 & _).
  remember (render defaultProps true 100 550 s2) as s3 eqn:Es3.
  split; [congruence |]. split; [exact Hp3 |]. split; [exact Ha3 |].
  rewrite useFrame_displayRef, Hd3, Hd2. cbn [andb].
  unfold progressTarget. rewrite Ha3, Hp3, Hr3, Hr2.
  pose proof half_second_passes_cap as Hc.
  set (d := damp 0 1 8 (1 / 2)) in *.
  cbn [loadingCap smoothFactor defaultProps].
  assert (Rmin (96 / 100) (Rmax (or_default 100 0 / 100) d) = 96 / 100) as ->.
  { apply Rmin_left. pose proof (Rmax_r (or_default 100 0 / 100) d). lra. }
  rewrite damp_closed.
  pose proof (decay_lt_1 8 (1 / 60)). pose proof (decay_pos 8 (1 / 60)).
  nra.
Qed.

(** *** The loading cap *)






(** [exp(-lambda * t)] is below [eps] from [t = 1 / (lambda * eps)] on. *)
Lemma decay_eventually_small (lambda eps : R) :
  0 < lambda -> 0 < eps ->
  forall t, / (lambda * eps) <= t -> decay lambda t < eps.
Proof.
  intros Hl He t Ht.
  assert (0 < lambda * eps) as Hle by (apply Rmult_lt_0_compat; assumption).
  assert (0 < / (lambda * eps)) as Hi by (apply Rinv_0_lt_compat; assumption).
  assert (0 < lambda * t) as Hlt by (apply Rmult_lt_0_compat; lra).
  pose proof (decay_bound lambda t Hlt) as Hb.
  assert (/ eps <= lambda * t) as Hge.
  { replace (/ eps) with (lambda * / (lambda * eps)) by (field; lra).
    apply Rmult_le_compat_l; lra. }
  assert (/ (1 + lambda * t) < eps) as Hs.
  { rewrite <- (Rinv_inv eps). apply Rinv_lt_contravar.
    - apply Rmult_lt_0_compat; [apply Rinv_0_lt_compat; lra | lra].
    - lra. }
  lra.
Qed.



End Overlay.

(* ------------------------------------------------------------------ *)
(** ** Invariants of the overlay over whole traces *)

Section OverlayInvariants.

Import LoadingOverlay.

Variable p : Props.

(** An invariant of every admitted event is an invariant of every admitted
    trace. *)
Lemma run_invariant (P : Event -> Prop) (I : State -> Prop) :
  (forall e s, P e -> I s -> I (fst (step p e s))) ->
  forall es s, Forall P es -> I s -> I (fst (run p es s)).
Proof.
  intros Hstep es. induction es as [| e es IH]; intros s Hall Hs; cbn [run].
  - exact Hs.
  - inversion Hall as [| ? ? He Hes]; subst.
    pose proof (Hstep e s He Hs) as H1.
    destruct (step p e s) as [s1 f]. cbn [fst] in H1.
    specialize (IH s1 Hes H1). destruct (run p es s1) as [s2 n]. exact IH.
Qed.

Lemma render_keeps_scene (act : bool) (prog now : R) (s : State) :
  uAlpha (render p act prog now s) = uAlpha s
  /\ toneMappingExposure (render p act prog now s) = toneMappingExposure s.
Proof.
  unfold render, effect.
  destruct (match deps s with None => true | Some a => negb (Bool.eqb a act) end);
    cbn [active phase].
  - destruct (negb act && phase_eqb (phase s) Loading);
      cbn [set_phase active phase];
      match goal with
      | |- context [if ?c then _ else _] => destruct c
      end; cbn; split; reflexivity.
  - cbn; split; reflexivity.
Qed.

(** The fade rate is positive whatever the fade time; a fade time that is
    not positive gives the snap rate 9999. *)
Lemma fadeRate_pos : 0 < fadeRate p.
Proof.
  unfold fadeRate, ltb. destruct (Rlt_dec 0 (fade p)) as [H | H].
  - apply Rdiv_lt_0_compat; lra.
  - lra.
Qed.

Lemma targetAlpha_unit (ph : Phase) : 0 <= targetAlpha ph <= 1.
Proof. destruct ph; unfold targetAlpha; cbn; lra. Qed.

(** *** Alpha *)

Lemma alphaInUnit_step (e : Event) (s : State) :
  forwardInTime e -> alphaInUnit s -> alphaInUnit (fst (step p e s)).
Proof.
  intros He [Ha Hu]. destruct e as [act prog now | dt now]; cbn [step fst forwardInTime] in *.
  - pose proof (render_keeps p act prog now s) as (E & _).
    pose proof (render_keeps_scene act prog now s) as (Eu & _).
    unfold alphaInUnit. rewrite E, Eu. split; assumption.
  - unfold useFrame. destruct (done s && unmountOnEnd p); cbn [fst].
    + split; assumption.
    + pose proof (targetAlpha_unit (phaseAfterHold now s)) as Ht.
      pose proof fadeRate_pos as Hk.
      assert (0 <= damp (alpha s) (targetAlpha (phaseAfterHold now s)) (fadeRate p) dt <= 1)
        as Hd by (split; [apply damp_ge | apply damp_le]; lra).
      unfold alphaInUnit; cbn [alpha uAlpha]. split.
      * destruct (abs_gt _ _); assumption.
      * intros u Eu. destruct (uAlpha s); [| discriminate].
        injection Eu as <-. exact Hd.
Qed.

(** X1: alpha, and the value written to the shader uniform, stay in
    [[0, 1]] on every trace whose frames take a non-negative time, for every
    configuration (a fade time of zero or less included). *)
Theorem alpha_stays_in_unit_interval :
  forall (es : list Event) (expo : R),
    Forall forwardInTime es ->
    let s := fst (run p es (initState expo)) in
    0 <= alpha s <= 1 /\ (forall u, uAlpha s = Some u -> 0 <= u <= 1).
Proof.
  intros es expo Hes.
  apply (run_invariant forwardInTime alphaInUnit alphaInUnit_step es _ Hes).
  unfold alphaInUnit, initState; cbn. split; [lra |].
  intros u E. injection E as <-. lra.
Qed.

(** *** Smoothed progress *)

Lemma progressTarget_unit (s : State) :
  0 <= loadingCap p <= 1 -> 0 <= displayRef s <= 1 ->
  0 <= progressTarget p s <= 1.
Proof.
  intros [Hc0 Hc1] [Hd0 Hd1]. unfold progressTarget.
  destruct (active s); [| lra].
  set (raw := or_default (progress s) 0 / 100).
  pose proof (Rmin_l (loadingCap p) (Rmax raw (displayRef s))).
  pose proof (Rmax_r raw (displayRef s)).
  split; [apply Rmin_glb |]; lra.
Qed.

Lemma displayInUnit_step (e : Event) (s : State) :
  0 <= loadingCap p <= 1 -> 0 <= smoothFactor p ->
  forwardInTime e -> displayInUnit s -> displayInUnit (fst (step p e s)).
Proof.
  intros Hc Hl He [Hr Hd].
  destruct e as [act prog now | dt now]; cbn [step fst forwardInTime] in *.
  - pose proof (render_keeps p act prog now s) as (_ & _ & E1 & E2 & _).
    unfold displayInUnit. rewrite E1, E2. split; assumption.
  - unfold useFrame. destruct (done s && unmountOnEnd p); cbn [fst].
    + split; assumption.
    + pose proof (progressTarget_unit s Hc Hr) as Ht.
      assert (0 <= damp (displayRef s) (progressTarget p s) (smoothFactor p) dt <= 1)
        as Hn by (split; [apply damp_ge | apply damp_le]; lra).
      unfold displayInUnit; cbn [displayRef display]. split; [exact Hn |].
      destruct (abs_gt _ _); assumption.
Qed.

(** X2: with a loading cap in [[0, 1]] and a non-negative smoothing rate,
    the smoothed progress and its rendered copy stay in [[0, 1]] on every
    trace, whatever progress values the loaders report (above 100 or
    negative included) and however often the overlay is re-activated. *)
Theorem display_progress_stays_in_unit_interval :
  forall (es : list Event) (expo : R),
    0 <= loadingCap p <= 1 -> 0 <= smoothFactor p ->
    Forall forwardInTime es ->
    let s := fst (run p es (initState expo)) in
    0 <= displayRef s <= 1 /\ 0 <= display s <= 1.
Proof.
  intros es expo Hc Hl Hes.
  apply (run_invariant forwardInTime displayInUnit
           (fun e s => displayInUnit_step e s Hc Hl) es _ Hes).
  unfold displayInUnit, initState; cbn. lra.
Qed.

(** *** The rendered copies *)

Lemma copiesTrack_step (e : Event) (s : State) :
  True -> copiesTrack s -> copiesTrack (fst (step p e s)).
Proof.
  intros _ [Hd Ha]. destruct e as [act prog now | dt now]; cbn [step fst].
  - pose proof (render_keeps p act prog now s) as (E0 & _ & E1 & E2 & _).
    pose proof (render_keeps_scene act prog now s) as (Eu & _).
    unfold copiesTrack. rewrite E0, E1, E2, Eu. split; assumption.
  - unfold useFrame. destruct (done s && unmountOnEnd p); cbn [fst].
    + split; assumption.
    + unfold copiesTrack; cbn [displayRef display alpha uAlpha]. split.
      * unfold abs_gt. destruct (Rlt_dec _ _) as [H | H].
        -- replace (_ - _) with 0 by ring. rewrite Rabs_R0. lra.
        -- lra.
      * intros u Eu. destruct (uAlpha s); [| discriminate].
        injection Eu as <-.
        unfold abs_gt. destruct (Rlt_dec _ _) as [H | H].
        -- replace (_ - _) with 0 by ring. rewrite Rabs_R0. lra.
        -- lra.
Qed.

(** X3: on every trace the React state copies stay within 0.0001 of the
    values they mirror: [display] of the smoothed progress ref, and [alpha]
    of the value in the shader uniform. *)
Theorem rendered_copies_track_within_threshold :
  forall (es : list Event) (expo : R),
    let s := fst (run p es (initState expo)) in
    Rabs (displayRef s - display s) <= 1 / 10000
    /\ (forall u, uAlpha s = Some u -> Rabs (u - alpha s) <= 1 / 10000).
Proof.
  intros es expo.
  apply (run_invariant (fun _ => True) copiesTrack copiesTrack_step es).
  - apply Forall_forall. intros; exact I.
  - unfold copiesTrack, initState; cbn. split.
    + replace (0 - 0) with 0 by ring. rewrite Rabs_R0. lra.
    + intros u E. injection E as <-.
      replace (1 - 1) with 0 by ring. rewrite Rabs_R0. lra.
Qed.

(** *** Phase and loaders *)

Lemma phaseMatchesActive_step (e : Event) (s : State) :
  True -> phaseMatchesActive s -> phaseMatchesActive (fst (step p e s)).
Proof.
  intros _ Hs.
  pose proof (step_phase_spec p e s) as Hph.
  apply (f_equal fst) in Hph. cbn [fst] in Hph.
  destruct e as [act prog now | dt now]; cbn [step fst] in *.
  - pose proof (render_keeps p act prog now s) as (_ & _ & _ & _ & Ea & _ & Ed).
    intros a Ha. rewrite Ed in Ha. injection Ha as <-.
    split; [exact Ea |]. rewrite Hph. unfold specTransition.
    destruct (deps s) as [a0 |] eqn:E0.
    + destruct (Hs a0 E0) as [_ Hl].
      destruct (Bool.eqb a0 act) eqn:Eq.
      * apply Bool.eqb_prop in Eq. subst a0. cbn [fst]. exact Hl.
      * destruct (phase s), act; cbn [fst]; split; intros; congruence.
    + destruct (phase s), act; cbn [fst]; split; intros; congruence.
  - pose proof (useFrame_keeps p dt now s) as (Ea & _ & Ed).
    intros a Ha. rewrite Ed in Ha. destruct (Hs a Ha) as [H1 H2].
    split; [congruence |]. rewrite Hph. unfold specTransition.
    destruct (done s && unmountOnEnd p); cbn [fst]; [exact H2 |].
    destruct (phase s) eqn:Eph; cbn [fst].
    + exact H2.
    + destruct (Rle_dec _ _); [destruct (Rlt_dec _ _) |]; cbn [fst];
        (split; [intros; discriminate | intros Et; apply H2 in Et; discriminate]).
    + destruct (Rlt_dec _ _); cbn [fst];
        (split; [intros; discriminate | intros Et; apply H2 in Et; discriminate]).
    + split; [intros; discriminate | intros Et; apply H2 in Et; discriminate].
Qed.

(** X4: on every trace, once mounted, the [active] the frame callback sees
    is the one the effect last ran with, and the phase is ['loading'] exactly
    while it is true: an overlay whose loaders are busy is never holding,
    fading or done, and one whose loaders are idle is never loading. *)
Theorem phase_is_loading_exactly_while_active :
  forall (es : list Event) (expo : R),
    phaseMatchesActive (fst (run p es (initState expo))).
Proof.
  intros es expo.
  apply (run_invariant (fun _ => True) phaseMatchesActive phaseMatchesActive_step es).
  - apply Forall_forall. intros; exact I.
  - intros a Ha. cbn in Ha. discriminate.
Qed.

(** *** After the finish *)

(** X5: once [done] is set under [unmountOnEnd], no trace changes alpha,
    the smoothed progress, its rendered copy, the shader uniform or the
    tone-mapping exposure again, and [done] stays set: renders can still move
    the phase, but the frame callback writes nothing. *)
Theorem finished_overlay_is_frozen :
  forall (es : list Event) (s : State),
    unmountOnEnd p = true -> done s = true ->
    let s' := fst (run p es s) in
    done s' = true /\ alpha s' = alpha s /\ displayRef s' = displayRef s
    /\ display s' = display s /\ uAlpha s' = uAlpha s
    /\ toneMappingExposure s' = toneMappingExposure s.
Proof.
  intros es s Hu Hd.
  apply (run_invariant (fun _ => True)
           (fun s' => done s' = true /\ alpha s' = alpha s
                      /\ displayRef s' = displayRef s /\ display s' = display s
                      /\ uAlpha s' = uAlpha s
                      /\ toneMappingExposure s' = toneMappingExposure s)).
  - intros e s1 _ (H1 & H2 & H3 & H4 & H5 & H6).
    destruct e as [act prog now | dt now]; cbn [step fst].
    + pose proof (render_keeps p act prog now s1) as (E0 & E1 & E2 & E3 & _).
      pose proof (render_keeps_scene act prog now s1) as (E4 & E5).
      rewrite E0, E1, E2, E3, E4, E5. repeat split; assumption.
    + rewrite useFrame_latched by (rewrite H1, Hu; reflexivity).
      cbn [fst]. repeat split; assumption.
  - apply Forall_forall. intros; exact I.
  - repeat split; try reflexivity. exact Hd.
Qed.

(** *** Exposure *)

(** X6: without [animateExposure] no trace touches the tone-mapping
    exposure. *)
Theorem exposure_untouched_without_ramp :
  forall (es : list Event) (s : State),
    animateExposure p = false ->
    toneMappingExposure (fst (run p es s)) = toneMappingExposure s.
Proof.
  intros es s Hx.
  apply (run_invariant (fun _ => True)
           (fun s' => toneMappingExposure s' = toneMappingExposure s)).
  - intros e s1 _ H1. destruct e as [act prog now | dt now]; cbn [step fst].
    + pose proof (render_keeps_scene act prog now s1) as (_ & E). congruence.
    + unfold useFrame. destruct (done s1 && unmountOnEnd p); cbn [fst]; [exact H1 |].
      cbn [toneMappingExposure]. rewrite Hx. exact H1.
  - apply Forall_forall. intros; exact I.
  - reflexivity.
Qed.

(** X7: with [animateExposure], a frame that is not cut short sets the
    exposure to [exposureFrom + (exposureTo - exposureFrom) * (1 - a)] for
    the alpha [a] it writes to the shader; for an alpha in [[0, 1]] and a
    non-negative frame time this lies between [exposureFrom] and
    [exposureTo], and on the frame that takes the phase into ['done'] it is
    within 1% of their distance from [exposureTo]. *)
Theorem exposure_ramp_between_ends :
  forall (dt now : R) (s : State),
    animateExposure p = true -> done s && unmountOnEnd p = false ->
    0 <= alpha s <= 1 -> 0 <= dt ->
    let s' := fst (useFrame p dt now s) in
    let a := damp (alpha s) (targetAlpha (phaseAfterHold now s)) (fadeRate p) dt in
    toneMappingExposure s'
    = exposureFrom p + (exposureTo p - exposureFrom p) * (1 - a)
    /\ (forall u, uAlpha s' = Some u -> u = a)
    /\ Rmin (exposureFrom p) (exposureTo p) <= toneMappingExposure s'
       <= Rmax (exposureFrom p) (exposureTo p)
    /\ (phase s <> Done -> phase s' = Done ->
        Rabs (toneMappingExposure s' - exposureTo p)
        <= 1 / 100 * Rabs (exposureTo p - exposureFrom p)).
Proof.
  intros dt now s Hx Hl Ha Hdt s' a. subst s'.
  pose proof (targetAlpha_unit (phaseAfterHold now s)) as Ht.
  pose proof fadeRate_pos as Hk.
  assert (0 <= a <= 1) as Ha'
      by (subst a; split; [apply damp_ge | apply damp_le]; lra).
  unfold useFrame. rewrite Hl. cbn [fst toneMappingExposure uAlpha phase].
  rewrite Hx. fold a.
  assert (lerp (exposureFrom p) (exposureTo p) (1 - a)
          = exposureFrom p + (exposureTo p - exposureFrom p) * (1 - a)) as El
      by (unfold lerp; ring).
  rewrite El. split; [reflexivity |]. split.
  { intros u Eu. destruct (uAlpha s); [| discriminate]. congruence. }
  split.
  { unfold Rmin, Rmax. destruct (Rle_dec (exposureFrom p) (exposureTo p)); split; nra. }
  intros Hnd Hdone.
  assert (a < 1 / 100) as Hsmall.
  { destruct (phase_eqb (phaseAfterHold now s) Fading && ltb a (1 / 100)) eqn:E.
    - apply andb_prop in E. destruct E as [_ E]. unfold ltb in E.
      destruct (Rlt_dec a (1 / 100)); [assumption | discriminate].
    - unfold phaseAfterHold in Hdone.
      destruct (phase s); cbn in Hdone;
        try destruct (geb now (holdUntil s)); cbn in Hdone; congruence. }
  replace (exposureFrom p + (exposureTo p - exposureFrom p) * (1 - a) - exposureTo p)
    with (- a * (exposureTo p - exposureFrom p)) by ring.
  rewrite Rabs_mult.
  replace (Rabs (- a)) with a by (rewrite Rabs_Ropp, Rabs_right; lra).
  pose proof (Rabs_pos (exposureTo p - exposureFrom p)). nra.
Qed.

(** *** Finishing the fade *)

(** X8: a frame that is not cut short, on an overlay that is fading (or
    holding past its deadline) with alpha in [[0, 1]], takes the phase to
    ['done'] as soon as [fadeRate * dt >= 99], and gives the finished signal
    exactly when [unmountOnEnd] is set.  With a fade time of zero or less
    the rate is 9999, so every frame of at least 10 ms finishes. *)
Theorem long_enough_frame_finishes_fade :
  forall (dt now : R) (s : State),
    done s && unmountOnEnd p = false ->
    0 <= alpha s <= 1 ->
    phase s = Fading \/ (phase s = Hold /\ holdUntil s <= now) ->
    99 <= fadeRate p * dt ->
    phase (fst (useFrame p dt now s)) = Done
    /\ snd (useFrame p dt now s) = unmountOnEnd p
    /\ (fade p <= 0 -> fadeRate p = 9999).
Proof.
  intros dt now s Hl Ha Hph Hdt.
  assert (decay (fadeRate p) dt < 1 / 100) as Hsmall.
  { assert (0 < fadeRate p * dt) as Hp by lra.
    pose proof (decay_bound (fadeRate p) dt Hp) as Hb.
    assert (/ (1 + fadeRate p * dt) <= / 100) as Hi
        by (apply Rinv_le_contravar; lra).
    lra. }
  pose proof (decay_pos (fadeRate p) dt) as Hpos.
  pose proof (step_phase_spec p (Frame dt now) s) as Hs.
  pose proof (step_fired_spec p (Frame dt now) s) as Hf.
  cbn [step] in Hs, Hf.
  apply (f_equal fst) in Hs. cbn [fst] in Hs.
  unfold specTransition in Hs. rewrite Hl in Hs. unfold decay in Hsmall, Hpos.
  assert (alpha s * exp (- fadeRate p * dt) < 1 / 100) as Hlt by nra.
  assert (phase (fst (useFrame p dt now s)) = Done) as Hd.
  { rewrite Hs. destruct Hph as [-> | [-> Hhu]].
    - destruct (Rlt_dec _ _); [reflexivity | contradiction].
    - destruct (Rle_dec _ _); [| contradiction].
      destruct (Rlt_dec _ _); [reflexivity | contradiction]. }
  split; [exact Hd |]. split.
  - rewrite Hf, Hd. unfold entersDone.
    destruct Hph as [-> | [-> _]]; cbn; apply andb_true_r.
  - intros Hfade. unfold fadeRate, ltb.
    destruct (Rlt_dec 0 (fade p)); [lra | reflexivity].
Qed.

(** *** While loading *)

Lemma opaqueLoading_run (es : list Event) (s : State) :
  Forall keepsLoading es -> opaqueLoading p s ->
  opaqueLoading p (fst (run p es s)) /\ snd (run p es s) = 0%nat.
Proof.
  revert s. induction es as [| e es IH]; intros s Hall Hs; cbn [run].
  - split; [exact Hs | reflexivity].
  - inversion Hall as [| ? ? He Hes]; subst.
    assert (opaqueLoading p (fst (step p e s)) /\ snd (step p e s) = false) as [H1 Hf].
    { destruct Hs as (Hph & Hd & Hal & Hact & Hdeps & Hu).
      destruct e as [act prog now | dt now]; cbn [step fst snd keepsLoading] in *.
      - subst act. split; [| reflexivity].
        unfold render. rewrite Hdeps. cbn [Bool.eqb negb].
        unfold opaqueLoading; cbn. repeat split; assumption.
      - unfold useFrame. rewrite Hd. cbn [andb fst snd].
        unfold phaseAfterHold. rewrite Hph. cbn [phase_eqb andb].
        unfold targetAlpha; cbn [phase_eqb orb]. rewrite Hal.
        assert (damp 1 1 (fadeRate p) dt = 1) as E1 by (rewrite damp_closed; ring).
        rewrite E1. split; [| reflexivity].
        unfold opaqueLoading; cbn.
        repeat split; try assumption.
        + destruct (abs_gt _ _); reflexivity.
        + intros u Eu. destruct (uAlpha s); [| discriminate]. congruence. }
    destruct (step p e s) as [s1 f]. cbn [fst snd] in *. subst f.
    destruct (IH s1 Hes H1) as [H2 Hn].
    destruct (run p es s1) as [s2 n]. cbn [fst snd] in *.
    split; [exact H2 | subst; reflexivity].
Qed.

Lemma uAlpha_stays_attached (es : list Event) (s : State) :
  (exists u, uAlpha s = Some u) ->
  exists u, uAlpha (fst (run p es s)) = Some u.
Proof.
  apply (run_invariant (fun _ => True) (fun s => exists u, uAlpha s = Some u)).
  - intros e s1 _ [u Eu]. destruct e as [act prog now | dt now]; cbn [step fst].
    + pose proof (render_keeps_scene act prog now s1) as (E & _).
      exists u. congruence.
    + unfold useFrame. destruct (done s1 && unmountOnEnd p); cbn [fst uAlpha].
      * exists u. exact Eu.
      * rewrite Eu. eexists. reflexivity.
  - apply Forall_forall. intros; exact I.
Qed.

(** X9: mounted with the loaders busy, and as long as every render still
    reports [active = true] (whatever progress it reports and however long
    the frames), the overlay stays in ['loading'] with alpha exactly 1, the
    shader uniform at 1, and the finished signal is never given. *)
Theorem overlay_stays_opaque_while_loading :
  forall (es : list Event) (prog0 now0 expo : R),
    Forall keepsLoading es ->
    let r := run p es (render p true prog0 now0 (initState expo)) in
    phase (fst r) = Loading /\ alpha (fst r) = 1 /\ uAlpha (fst r) = Some 1
    /\ done (fst r) = false /\ snd r = 0%nat.
Proof.
  intros es prog0 now0 expo Hes r. subst r.
  assert (opaqueLoading p (render p true prog0 now0 (initState expo))) as H0.
  { unfold opaqueLoading, render, initState, effect; cbn.
    repeat split; try reflexivity. intros u E. congruence. }
  destruct (opaqueLoading_run es _ Hes H0) as [(Hph & Hd & Hal & _ & _ & Hu) Hn].
  destruct (uAlpha_stays_attached es
              (render p true prog0 now0 (initState expo))) as [u Eu].
  { exists 1. reflexivity. }
  repeat split; try assumption.
  rewrite Eu. f_equal. apply Hu. exact Eu.
Qed.

End OverlayInvariants.

(* ------------------------------------------------------------------ *)
(** ** The callout over whole runs *)

Section CalloutRuns.

Import WonderCallout.

Lemma damp_no_time (x y lambda : R) : damp x y lambda 0 = x.
Proof.
  rewrite damp_closed. unfold decay.
  replace (- lambda * 0) with 0 by ring. rewrite exp_0. ring.
Qed.

Lemma inRange_useFrame (hov : bool) (bs : R * R) (h dt : R) (s : Refs) :
  0 <= dt -> inRange s -> inRange (useFrame hov bs h dt s).
Proof.
  intros Hdt (Ho & Hi & Hs & Ht & Hl).
  pose proof (open_in_unit_interval hov bs h dt s Hdt Ho) as Ho'.
  unfold inRange, useFrame in *; cbn [open imgOpacity imgScale titleScale lineOpacity] in *.
  repeat split;
    try (apply damp_ge; try lra; destruct hov; lra);
    try (apply damp_le; try lra; destruct hov; lra).
Qed.

Lemma inRange_initEffect (s : Refs) : inRange (initEffect s).
Proof. unfold inRange, initEffect; cbn. lra. Qed.

Lemma inRange_commit (prev : option View) (v : View) (s : Refs) :
  inRange s -> inRange (commit prev v s).
Proof.
  intros Hs. unfold commit. destruct prev as [v0 |].
  - destruct (same_value _ _); [exact Hs | apply inRange_initEffect].
  - apply inRange_initEffect.
Qed.

(** X10: in every state a mounted callout can reach (frames of
    non-negative duration, renders that may or may not re-run the init
    effect), the open amount, image opacity and image scale are in [[0, 1]],
    the title scale in [[1, 1.22]], the line opacity in [[0.45, 0.9]]; the
    image opacity and the image scale are the same number; and the scale on
    the image anchor is uniform in x and y, at least 0.0001 and at most 1,
    with z at 1. *)
Theorem callout_values_stay_in_range :
  forall (v : View) (s : Refs),
    Reachable v s ->
    inRange s
    /\ imgOpacity s = imgScale s
    /\ (forall a, imgAnchorScale s = Some a ->
          1 / 10000 <= vx a <= 1 /\ vy a = vx a /\ vz a = 1).
Proof.
  intros v s H. induction H as [v | v s v' H IH | v s h dt H IH Himg Hdt].
  - cbn [commit]. split; [apply inRange_initEffect |].
    split; [reflexivity |].
    intros a Ea. cbn in Ea. injection Ea as <-. cbn. lra.
  - destruct IH as (Hr & He & Ha).
    split; [apply inRange_commit; exact Hr |].
    unfold commit. destruct (same_value _ _).
    + split; assumption.
    + split; [reflexivity |]. exact Ha.
  - destruct IH as (Hr & He & Ha).
    pose proof (inRange_useFrame (hovered v) (baseSize v) h dt s Hdt Hr) as Hr'.
    split; [exact Hr' |].
    destruct Hr' as (_ & _ & Hs' & _).
    unfold useFrame in *; cbn [imgOpacity imgScale imgAnchorScale] in *.
    split; [rewrite He; reflexivity |].
    intros a Ea. destruct (imgAnchorScale s); [| discriminate].
    cbn in Ea. injection Ea as <-. cbn [vx vy vz].
    split; [| split; reflexivity].
    split; [apply Rmax_l | apply Rmax_lub; lra].
Qed.

Lemma callout_values_stay_in_range_witness :
  inRange (useFrame true initialBaseSize (9 / 20) (1 / 60)
             (commit None (mkView true initialBaseSize defaultAspect) freshRefs)).
Proof.
  refine (proj1 (callout_values_stay_in_range
                   (mkView true initialBaseSize defaultAspect) _ _)).
  apply (R_frame (mkView true initialBaseSize defaultAspect)).
  - apply R_mount.
  - cbn [baseSize imgAspect]. unfold imgH, defaultAspect.
    rewrite imgW_initial. rewrite jdiv_fin by lra. f_equal. field.
  - lra.
Defined.

(** *** Consecutive frames of one render *)

Lemma frames_closed (hov : bool) (bs : R * R) (h : R) (dts : list R) (s : Refs) :
  open (frames hov bs h dts s)
  = damp (open s) (if hov then 1 else 0) 6 (total dts)
  /\ titleScale (frames hov bs h dts s)
     = damp (titleScale s) (if hov then 122 / 100 else 1) 8 (total dts)
  /\ lineOpacity (frames hov bs h dts s)
     = damp (lineOpacity s) (if hov then 45 / 100 else 9 / 10) 8 (total dts).
Proof.
  revert s. induction dts as [| dt dts IH]; intros s; cbn [frames total].
  - rewrite !damp_no_time. repeat split; reflexivity.
  - destruct (IH (useFrame hov bs h dt s)) as (H1 & H2 & H3).
    rewrite H1, H2, H3. unfold useFrame; cbn [open titleScale lineOpacity].
    rewrite !damp_compose. repeat split; reflexivity.
Qed.

(** X11: the open amount, the title scale and the line opacity do not
    depend on how a stretch of time under one hover state is cut into
    frames: after frames totalling [t] seconds each is
    [target + (start - target) * exp(-rate * t)], so two frame sequences of
    the same total duration leave the same three values. *)
Theorem callout_frame_rate_independent :
  forall (hov : bool) (bs : R * R) (h : R) (dts dts' : list R) (s : Refs),
    (open (frames hov bs h dts s)
       = (if hov then 1 else 0)
         + (open s - (if hov then 1 else 0)) * exp (- 6 * total dts)
     /\ titleScale (frames hov bs h dts s)
        = (if hov then 122 / 100 else 1)
          + (titleScale s - (if hov then 122 / 100 else 1)) * exp (- 8 * total dts)
     /\ lineOpacity (frames hov bs h dts s)
        = (if hov then 45 / 100 else 9 / 10)
          + (lineOpacity s - (if hov then 45 / 100 else 9 / 10))
            * exp (- 8 * total dts))
    /\ (total dts = total dts' ->
        open (frames hov bs h dts s) = open (frames hov bs h dts' s)
        /\ titleScale (frames hov bs h dts s) = titleScale (frames hov bs h dts' s)
        /\ lineOpacity (frames hov bs h dts s) = lineOpacity (frames hov bs h dts' s)).
Proof.
  intros hov bs h dts dts' s.
  destruct (frames_closed hov bs h dts s) as (H1 & H2 & H3).
  destruct (frames_closed hov bs h dts' s) as (H1' & H2' & H3').
  split.
  - rewrite H1, H2, H3. repeat split; apply damp_closed.
  - intros E. rewrite H1, H2, H3, H1', H2', H3', E. repeat split; reflexivity.
Qed.

(** X12: hover settles.  From values in range, once the frames under one
    hover state total at least [1 / (6 * eps)] seconds, the open amount, the
    title scale and the line opacity are within [eps] of that state's
    targets; so hovering and then leaving brings them back to within [eps]
    of 0, 1 and 0.9. *)
Theorem callout_settles_on_hover_targets :
  forall (hov : bool) (bs : R * R) (h eps : R) (dts : list R) (s : Refs),
    inRange s -> 0 < eps -> / (6 * eps) <= total dts ->
    let s' := frames hov bs h dts s in
    Rabs (open s' - (if hov then 1 else 0)) < eps
    /\ Rabs (titleScale s' - (if hov then 122 / 100 else 1)) < eps
    /\ Rabs (lineOpacity s' - (if hov then 45 / 100 else 9 / 10)) < eps.
Proof.
  intros hov bs h eps dts s (Ho & _ & _ & Ht & Hl) Heps HT s'. subst s'.
  destruct (frames_closed hov bs h dts s) as (H1 & H2 & H3).
  rewrite H1, H2, H3, !damp_closed.
  assert (0 < 6) as H6 by lra.
  pose proof (decay_eventually_small 6 eps H6 Heps (total dts) HT) as Hs6.
  pose proof (decay_pos 6 (total dts)) as Hp6.
  pose proof (decay_pos 8 (total dts)) as Hp8.
  assert (decay 8 (total dts) <= decay 6 (total dts)) as H86.
  { assert (0 < / (6 * eps)) as Hi
        by (apply Rinv_0_lt_compat; lra).
    unfold decay. left. apply exp_increasing. nra. }
  assert (forall x e, Rabs x <= 1 -> 0 < e -> Rabs (x * e) <= e) as Hb.
  { intros x e Hx He. rewrite Rabs_mult, (Rabs_right e) by lra.
    pose proof (Rabs_pos x). nra. }
  repeat split.
  - replace (_ + _ - _) with ((open s - (if hov then 1 else 0)) * decay 6 (total dts))
      by ring.
    apply Rle_lt_trans with (decay 6 (total dts)); [| assumption].
    apply Hb; [| assumption]. apply Rabs_le. destruct hov; lra.
  - replace (_ + _ - _)
      with ((titleScale s - (if hov then 122 / 100 else 1)) * decay 8 (total dts))
      by ring.
    apply Rle_lt_trans with (decay 8 (total dts)); [| lra].
    apply Hb; [| assumption]. apply Rabs_le. destruct hov; lra.
  - replace (_ + _ - _)
      with ((lineOpacity s - (if hov then 45 / 100 else 9 / 10)) * decay 8 (total dts))
      by ring.
    apply Rle_lt_trans with (decay 8 (total dts)); [| lra].
    apply Hb; [| assumption]. apply Rabs_le. destruct hov; lra.
Qed.

End CalloutRuns.

(* ------------------------------------------------------------------ *)
(** ** Geometry of the callout *)

Section CalloutGeometry.

Import WonderCallout.

Lemma anchored_combination (y sy ty tsy e B : R) :
  ty + B * tsy / 2 = B / 2 -> y + B * sy / 2 = B / 2 ->
  ty + (y - ty) * e + B * (tsy + (sy - tsy) * e) / 2 = B / 2.
Proof.
  intros H1 H2.
  replace (ty + (y - ty) * e + B * (tsy + (sy - tsy) * e) / 2)
    with (ty + B * tsy / 2 + (y + B * sy / 2 - (ty + B * tsy / 2)) * e)
    by field.
  rewrite H1, H2. ring.
Qed.

(** X13: the background grows downward only, for a render whose image
    height is a finite number [h].  If the panel's top edge (centre plus
    half its height) is at the top of the collapsed shape before a frame,
    and its vertical scale is not zero, it is there after the frame as well:
    the scale and the offset are damped at the same rate toward targets that
    keep the top anchored.  The program's own computation over possibly
    non-finite numbers gives these same finite values.  (With a non-finite
    image height the frame can write NaN; see C8.) *)
Theorem panel_top_edge_stays_anchored :
  forall (hov : bool) (bs : R * R) (h dt : R) (s : Refs) (m : Mesh),
    bgBaseH bs <> 0 ->
    bgMesh s = Some m ->
    scale_y m <> 0 ->
    position_y m + panelHeight bs m / 2 = bgBaseH bs / 2 ->
    exists m',
      bgMesh (useFrame hov bs h dt s) = Some m'
      /\ position_y m' + panelHeight bs m' / 2 = bgBaseH bs / 2
      /\ exists mj,
          frameBackground hov bs (Fin h) dt s (Some (liftMesh m)) = Some mj
          /\ jposition_y mj = Fin (position_y m')
          /\ jscale_y mj = Fin (scale_y m').
Proof.
  intros hov bs h dt s m HB Hm Hsy Htop.
  unfold frameBackground.
  unfold useFrame; cbn [bgMesh]. rewrite Hm. cbn [option_map].
  set (o := damp (open s) (if hov then 1 else 0) 6 dt).
  eexists. split; [reflexivity |]. split.
  - unfold panelHeight, growBackground in *; cbn [position_y scale_y].
    rewrite or_default_zero, (or_default_nonzero (scale_y m)) by assumption.
    rewrite !damp_closed.
    apply anchored_combination; [| exact Htop].
    unfold scaleY. field. assumption.
  - eexists. split; [reflexivity |].
    destruct (growBackgroundJ_fin_vertical bs h o dt m HB) as [E1 E2].
    split; assumption.
Qed.

Lemma panel_top_edge_stays_anchored_witness :
  exists m',
    bgMesh (useFrame true initialBaseSize (9 / 20) (1 / 60) freshRefs) = Some m'
    /\ position_y m' + panelHeight initialBaseSize m' / 2
       = bgBaseH initialBaseSize / 2
    /\ exists mj,
        frameBackground true initialBaseSize (Fin (9 / 20)) (1 / 60) freshRefs
          (Some (liftMesh (mkMesh 1 1 1 0))) = Some mj
        /\ jposition_y mj = Fin (position_y m')
        /\ jscale_y mj = Fin (scale_y m').
Proof.
  apply (panel_top_edge_stays_anchored true initialBaseSize (9 / 20) (1 / 60)
           freshRefs (mkMesh 1 1 1 0)).
  - unfold bgBaseH, initialBaseSize, bgPadTop; simpl. lra.
  - reflexivity.
  - simpl. lra.
  - unfold panelHeight; simpl. lra.
Defined.

(** X14: the fully open panel holds the image, for a positive collapsed
    size and an image height that is a finite number [h].  At open amount 1
    the targets the program computes are finite; the target panel keeps its
    top at the top of the collapsed shape, which is above the image's top
    edge; its bottom edge is exactly [bgPadTop + bgPadBottom] below the
    bottom edge of the image; and its width leaves at least [bgPadX] on
    either side of the image. *)
Theorem open_panel_contains_image :
  forall (bs : R * R) (h : R),
    0 < bgBaseW bs -> 0 < bgBaseH bs ->
    let height := bgBaseH bs * scaleY bs h 1 in
    let width := bgBaseW bs * scaleX bs 1 in
    let centre := - (extraH h 1 / 2) in
    centre + height / 2 = bgBaseH bs / 2
    /\ imageTopY bs <= centre + height / 2
    /\ centre - height / 2 = imageTopY bs - h - (bgPadTop + bgPadBottom)
    /\ imgW bs + 2 * bgPadX <= width
    /\ bgBaseW bs <= width
    /\ jmul (Fin (bgBaseH bs)) (scaleYJ bs (Fin h) 1) = Fin height
    /\ jmul (Fin (bgBaseW bs)) (scaleXJ bs 1) = Fin width
    /\ jneg (jdiv (extraHJ (Fin h) 1) (Fin 2)) = Fin centre.
Proof.
  intros bs h HW HH height width centre. subst height width centre.
  assert (jmul (Fin (bgBaseH bs)) (scaleYJ bs (Fin h) 1)
          = Fin (bgBaseH bs * scaleY bs h 1)) as J1
      by (rewrite scaleYJ_fin by lra; reflexivity).
  assert (jmul (Fin (bgBaseW bs)) (scaleXJ bs 1)
          = Fin (bgBaseW bs * scaleX bs 1)) as J2
      by (rewrite scaleXJ_fin by lra; reflexivity).
  assert (jneg (jdiv (extraHJ (Fin h) 1) (Fin 2)) = Fin (- (extraH h 1 / 2))) as J3
      by (rewrite extraHJ_fin, jdiv_fin by lra; reflexivity).
  assert (bgBaseH bs * scaleY bs h 1 = bgBaseH bs + extraH h 1) as EH
      by (unfold scaleY; field; lra).
  assert (bgBaseW bs * scaleX bs 1 = neededW bs) as EW.
  { unfold scaleX, widenedW, lerp. field. lra. }
  rewrite J1, J2, J3.
  rewrite EH, EW.
  unfold extraH, imageTopY, bgBaseH, gapY, bgPadTop, bgPadBottom, bgPadX in *.
  pose proof (Rmax_l (bgBaseW bs) (imgW bs + 2 / 100 * 2)) as H1.
  pose proof (Rmax_r (bgBaseW bs) (imgW bs + 2 / 100 * 2)) as H2.
  unfold neededW, bgPadX.
  repeat split; try lra.
Qed.

Lemma open_panel_contains_image_witness :
  imgW initialBaseSize + 2 * bgPadX
  <= bgBaseW initialBaseSize * scaleX initialBaseSize 1.
Proof.
  refine (proj1 (proj2 (proj2 (proj2
            (open_panel_contains_image initialBaseSize (9 / 20) _ _)))));
    unfold bgBaseW, bgBaseH, initialBaseSize, bgPadX, bgPadTop; simpl; lra.
Defined.

(** *** Anchors *)

Lemma surface_length (lat lon radius dotOffset : R) :
  0 <= radius + dotOffset ->
  Vec.length (surface lat lon radius dotOffset) = radius + dotOffset.
Proof.
  intros Hr. unfold Vec.length, surface.
  pose proof (latLonToVec3_on_sphere lat lon radius dotOffset) as H.
  unfold norm2 in H. rewrite latLonToVec3_copies_agree, H.
  apply sqrt_square. assumption.
Qed.

(** X15: for a pin above the centre ([radius + dotOffset > 0]) the
    direction [dir] is a unit vector, and the label and the control point of
    the leader line sit on the pin's own radius: [labelPos] is the
    projection of the same latitude and longitude at altitude
    [labelDistance], and [ctrl] the one at altitude
    [labelDistance * (0.5 + bow)]. *)
Theorem label_sits_radially_above_pin :
  forall (lat lon radius dotOffset labelDistance bow : R),
    0 < radius + dotOffset ->
    let d := dir (surface lat lon radius dotOffset) in
    norm2 d = 1
    /\ labelPos d radius labelDistance
       = latLonToVec3 lat lon radius labelDistance
    /\ ctrl d radius labelDistance bow
       = latLonToVec3 lat lon radius (labelDistance * (5 / 10 + bow)).
Proof.
  intros lat lon radius dotOffset labelDistance bow Hr d. subst d.
  unfold dir, Vec.normalize.
  rewrite surface_length by lra. rewrite or_default_nonzero by lra.
  unfold Vec.divideScalar, Vec.multiplyScalar, surface, latLonToVec3.
  cbn [vx vy vz].
  set (phi := (90 - lat) * DEG2RAD). set (theta := (lon + 180) * DEG2RAD).
  split; [| split].
  - unfold norm2; cbn [vx vy vz].
    pose proof (sin2_cos2 phi) as Hp. pose proof (sin2_cos2 theta) as Ht.
    unfold Rsqr in Hp, Ht.
    replace (_ + _ + _)
      with (sin phi * sin phi * (sin theta * sin theta + cos theta * cos theta)
            + cos phi * cos phi) by (field; lra).
    rewrite Ht. lra.
  - unfold labelPos, Vec.multiplyScalar; cbn [vx vy vz]. f_equal; field; lra.
  - unfold ctrl, Vec.multiplyScalar; cbn [vx vy vz]. f_equal; field; lra.
Qed.

Lemma label_sits_radially_above_pin_witness :
  labelPos (dir (surface 0 0 2 (15 / 1000))) 2 (9 / 10)
  = latLonToVec3 0 0 2 (9 / 10).
Proof.
  refine (proj1 (proj2 (label_sits_radially_above_pin
                          0 0 2 (15 / 1000) (9 / 10) (25 / 100) _))).
  lra.
Defined.

(** X16: a pin at the centre ([radius + dotOffset = 0]) divides by nothing:
    the surface point is the zero vector, [normalize] divides it by 1, and
    the direction, the label position and the control point are all the zero
    vector. *)
Theorem centre_pin_has_zero_anchors :
  forall (lat lon radius dotOffset labelDistance bow : R),
    radius + dotOffset = 0 ->
    let d := dir (surface lat lon radius dotOffset) in
    surface lat lon radius dotOffset = mkVector3 0 0 0
    /\ d = mkVector3 0 0 0
    /\ labelPos d radius labelDistance = mkVector3 0 0 0
    /\ ctrl d radius labelDistance bow = mkVector3 0 0 0.
Proof.
  intros lat lon radius dotOffset labelDistance bow Hr d. subst d.
  assert (surface lat lon radius dotOffset = mkVector3 0 0 0) as E.
  { unfold surface, latLonToVec3. rewrite Hr. f_equal; ring. }
  assert (dir (mkVector3 0 0 0) = mkVector3 0 0 0) as Ed.
  { unfold dir, Vec.normalize, Vec.length; cbn [vx vy vz].
    replace (0 * 0 + 0 * 0 + 0 * 0) with 0 by ring. rewrite sqrt_0.
    unfold or_default. destruct (Req_dec_T 0 0); [| lra].
    unfold Vec.divideScalar, Vec.multiplyScalar; cbn [vx vy vz].
    f_equal; field. }
  rewrite E, Ed.
  unfold labelPos, ctrl, Vec.multiplyScalar; cbn [vx vy vz].
  repeat split; f_equal; ring.
Qed.

Lemma centre_pin_has_zero_anchors_witness :
  dir (surface 10 20 2 (-2)) = mkVector3 0 0 0.
Proof.
  refine (proj1 (proj2 (centre_pin_has_zero_anchors 10 20 2 (-2) 1 1 _))).
  lra.
Defined.

(** *** The rounded rectangle *)

Lemma angle_three_halves : PI * (15 / 10) = 3 * (PI / 2).
Proof. field. Qed.

Lemma angle_full_turn : PI * 2 = 2 * PI.
Proof. ring. Qed.

(** X17: the outline of the rounded rectangle is one closed curve, for
    every width, height and radius: it opens with a [moveTo] at
    [(w/2 - r, h/2)], every line and arc after it starts exactly where the
    pen is (in exact arithmetic), and the last arc leaves the pen on the
    opening point. *)
Theorem rounded_rect_outline_is_closed :
  forall (w h r : R),
    exists rest,
      makeRoundedRectShape w h r = MoveTo (w / 2 - r) (h / 2) :: rest
      /\ continuous (w / 2 - r, h / 2) rest
      /\ lastPoint (w / 2 - r, h / 2) rest = (w / 2 - r, h / 2).
Proof.
  intros w h r. unfold makeRoundedRectShape.
  eexists. split; [reflexivity |].
  cbn [continuous lastPoint cmdStart cmdEnd].
  rewrite angle_three_halves, angle_full_turn.
  rewrite cos_PI2, sin_PI2, cos_PI, sin_PI, cos_3PI2, sin_3PI2,
    cos_2PI, sin_2PI, cos_0, sin_0.
  repeat split; f_equal; ring.
Qed.

Lemma segment_inside (lo hi a b t : R) :
  lo <= a <= hi -> lo <= b <= hi -> 0 <= t <= 1 ->
  lo <= a + t * (b - a) <= hi.
Proof. intros Ha Hb Ht. split; nra. Qed.

Lemma offset_inside (c r k lo hi : R) :
  0 <= r -> lo <= c - r -> c <= hi -> -1 <= k <= 0 ->
  lo <= c + r * k <= hi.
Proof. intros Hr Hlo Hhi Hk. split; nra. Qed.

Lemma offset_inside_up (c r k lo hi : R) :
  0 <= r -> lo <= c -> c + r <= hi -> 0 <= k <= 1 ->
  lo <= c + r * k <= hi.
Proof. intros Hr Hlo Hhi Hk. split; nra. Qed.

(** Every point drawn by the rounded rectangle of a radius between 0 and
    half of either side lies inside the [w x h] box. *)
Lemma rounded_rect_inside_box (w h r : R) (pen q : R * R) :
  0 <= r -> r <= w / 2 -> r <= h / 2 ->
  onPath pen (makeRoundedRectShape w h r) q ->
  - (w / 2) <= fst q <= w / 2 /\ - (h / 2) <= snd q <= h / 2.
Proof.
  intros Hr Hw Hh Hq.
  pose proof PI_RGT_0 as Hpi.
  unfold makeRoundedRectShape in Hq.
  rewrite angle_three_halves, angle_full_turn in Hq.
  cbn [onPath onCmd cmdEnd fst snd] in Hq.
  rewrite ?cos_PI, ?sin_PI, ?cos_3PI2, ?sin_3PI2, ?cos_2PI, ?sin_2PI in Hq.
  destruct Hq as [E | [(t & Ht & E) | [(a & Ha & E) | [(t & Ht & E)
    | [(a & Ha & E) | [(t & Ht & E) | [(a & Ha & E) | [(t & Ht & E)
    | [(a & Ha & E) | []]]]]]]]]]; subst q; cbn [fst snd].
  - lra.
  - split; apply segment_inside; lra.
  - pose proof (COS_bound a) as Hc. pose proof (SIN_bound a) as Hs.
    assert (cos a <= 0) by (apply cos_le_0; lra).
    assert (0 <= sin a) by (apply sin_ge_0; lra).
    split; [apply offset_inside | apply offset_inside_up]; lra.
  - split; apply segment_inside; lra.
  - pose proof (COS_bound a) as Hc. pose proof (SIN_bound a) as Hs.
    assert (cos a <= 0) by (apply cos_le_0; lra).
    assert (sin a <= 0) by (apply sin_le_0; lra).
    split; apply offset_inside; lra.
  - split; apply segment_inside; lra.
  - pose proof (COS_bound a) as Hc. pose proof (SIN_bound a) as Hs.
    assert (0 <= cos a) by (apply cos_ge_0_3PI2; lra).
    assert (sin a <= 0) by (apply sin_le_0; lra).
    split; [apply offset_inside_up | apply offset_inside]; lra.
  - split; apply segment_inside; lra.
  - pose proof (COS_bound a) as Hc. pose proof (SIN_bound a) as Hs.
    assert (0 <= cos a) by (apply cos_ge_0; lra).
    assert (0 <= sin a) by (apply sin_ge_0; lra).
    split; apply offset_inside_up; lra.
Qed.

(** X18: the radius [bgShape] is built with never lets opposite corners
    meet.  For a collapsed panel of at least 0.002 in width and height and a
    non-negative [cornerRadius], the radius used is between 0 and
    [cornerRadius], the corner centres on opposite sides are at least 0.002
    apart, and every point the outline passes (the end points of its calls,
    every point of its four segments and every point of its four arcs) lies
    inside the [bgBaseW x bgBaseH] box. *)
Theorem background_shape_corners_fit :
  forall (bs : R * R) (cornerRadius : R),
    0 <= cornerRadius ->
    2 / 1000 <= bgBaseW bs -> 2 / 1000 <= bgBaseH bs ->
    let w := bgBaseW bs in
    let h := bgBaseH bs in
    let r := bgCornerRadius bs cornerRadius in
    0 <= r <= cornerRadius
    /\ 2 / 1000 <= (w / 2 - r) - (- (w / 2) + r)
    /\ 2 / 1000 <= (h / 2 - r) - (- (h / 2) + r)
    /\ Forall (fun c => - (w / 2) <= fst (cmdEnd c) <= w / 2
                        /\ - (h / 2) <= snd (cmdEnd c) <= h / 2)
              (makeRoundedRectShape w h r)
    /\ (forall pen q,
           onPath pen (makeRoundedRectShape w h r) q ->
           - (w / 2) <= fst q <= w / 2 /\ - (h / 2) <= snd q <= h / 2).
Proof.
  intros bs cornerRadius Hc HW HH w h r. subst w h r.
  unfold bgCornerRadius.
  set (w := bgBaseW bs) in *. set (h := bgBaseH bs) in *.
  pose proof (Rmin_l cornerRadius (Rmin w h / 2 - 1 / 1000)) as H1.
  pose proof (Rmin_r cornerRadius (Rmin w h / 2 - 1 / 1000)) as H2.
  pose proof (Rmin_l w h) as H3. pose proof (Rmin_r w h) as H4.
  assert (0 <= Rmin cornerRadius (Rmin w h / 2 - 1 / 1000)) as H0.
  { apply Rmin_glb; [assumption |].
    assert (2 / 1000 <= Rmin w h) by (apply Rmin_glb; assumption). lra. }
  set (r := Rmin cornerRadius (Rmin w h / 2 - 1 / 1000)) in *.
  split; [lra |]. split; [lra |]. split; [lra |].
  split.
  - unfold makeRoundedRectShape.
    rewrite angle_three_halves, angle_full_turn.
    repeat (apply Forall_cons;
            [ cbn [cmdEnd fst snd];
              rewrite ?cos_PI2, ?sin_PI2, ?cos_PI, ?sin_PI, ?cos_3PI2, ?sin_3PI2,
                ?cos_2PI, ?sin_2PI, ?cos_0, ?sin_0; lra
            | ]).
    apply Forall_nil.
  - intros pen q Hq.
    apply (rounded_rect_inside_box w h r pen q); try assumption; lra.
Qed.

Lemma background_shape_corners_fit_witness :
  0 <= bgCornerRadius initialBaseSize (8 / 100) <= 8 / 100.
Proof.
  refine (proj1 (background_shape_corners_fit initialBaseSize (8 / 100) _ _ _));
    unfold bgBaseW, bgBaseH, initialBaseSize, bgPadX, bgPadTop; simpl; lra.
Defined.

(** *** The projection *)

(** X19: every projected point is at squared distance
    [(radius + altitude)^2] from the centre; the projection has period 360
    in the longitude, so longitudes -180 and 180 give the same point; the
    south pole is [(0, -r, 0)] for every longitude; and mirroring the
    latitude while turning the longitude by 180 gives the opposite point. *)
Theorem projection_sphere_period_antipode :
  forall (lat lon radius altitude : R),
    norm2 (Utils.latLonToVec3 lat lon radius altitude)
    = (radius + altitude) * (radius + altitude)
    /\ Utils.latLonToVec3 lat (lon + 360) radius altitude
       = Utils.latLonToVec3 lat lon radius altitude
    /\ Utils.latLonToVec3 lat (-180) radius altitude
       = Utils.latLonToVec3 lat 180 radius altitude
    /\ Utils.latLonToVec3 (-90) lon radius altitude
       = mkVector3 0 (- (radius + altitude)) 0
    /\ Utils.latLonToVec3 (- lat) (lon + 180) radius altitude
       = mkVector3 (- vx (Utils.latLonToVec3 lat lon radius altitude))
                   (- vy (Utils.latLonToVec3 lat lon radius altitude))
                   (- vz (Utils.latLonToVec3 lat lon radius altitude)).
Proof.
  intros lat lon radius altitude.
  assert (forall l, Utils.latLonToVec3 lat (l + 360) radius altitude
                    = Utils.latLonToVec3 lat l radius altitude) as Hper.
  { intros l. unfold Utils.latLonToVec3, DEG2RAD.
    replace ((l + 360 + 180) * (PI / 180))
      with ((l + 180) * (PI / 180) + 2 * PI) by field.
    rewrite cos_plus, sin_plus, cos_2PI, sin_2PI.
    f_equal; ring. }
  split; [apply latLonToVec3_on_sphere |].
  split; [apply Hper |].
  split.
  { rewrite <- (Hper (-180)). f_equal. lra. }
  split.
  - unfold Utils.latLonToVec3, DEG2RAD.
    replace ((90 - -90) * (PI / 180)) with PI by field.
    rewrite sin_PI, cos_PI. f_equal; ring.
  - unfold Utils.latLonToVec3, DEG2RAD; cbn [vx vy vz].
    replace ((90 - - lat) * (PI / 180))
      with (PI - (90 - lat) * (PI / 180)) by field.
    replace ((lon + 180 + 180) * (PI / 180))
      with ((lon + 180) * (PI / 180) + PI) by field.
    rewrite sin_minus, cos_minus, cos_plus, sin_plus, sin_PI, cos_PI.
    f_equal; ring.
Qed.

End CalloutGeometry.

(* ------------------------------------------------------------------ *)
(** ** The planet *)

Section Planet.

Import EarthSystem.

(** X20: the planet turns at 0.1 radians per second whatever the frame
    rate: after any frames its [rotation.y] is the starting angle plus a
    tenth of their total duration, two frame sequences of the same total
    leave the same angle, and an unattached ref stays unattached. *)
Theorem planet_rotation_accumulates :
  forall (phi theta : R) (deltas deltas' : list R) (sc : Scene),
    rotation_y (frames phi theta deltas sc)
    = option_map (fun y => y + total deltas * (1 / 10)) (rotation_y sc)
    /\ (total deltas = total deltas' ->
        rotation_y (frames phi theta deltas sc)
        = rotation_y (frames phi theta deltas' sc)).
Proof.
  intros phi theta deltas deltas' sc.
  assert (forall ds sc0,
            rotation_y (frames phi theta ds sc0)
            = option_map (fun y => y + total ds * (1 / 10)) (rotation_y sc0)) as H.
  { induction ds as [| d ds IH]; intros sc0; cbn [frames total].
    - destruct (rotation_y sc0); cbn; [f_equal; ring | reflexivity].
    - rewrite IH. unfold useFrame; cbn [rotation_y].
      destruct (rotation_y sc0); cbn; [f_equal; ring | reflexivity]. }
  split; [apply H |].
  intros E. rewrite !H, E. reflexivity.
Qed.

(** X21: the sun direction written on every frame is a unit vector for
    every pair of control angles. *)
Theorem sun_direction_is_unit :
  forall (phi theta delta : R) (sc : Scene),
    norm2 (sunDir (useFrame phi theta delta sc)) = 1.
Proof.
  intros phi theta delta sc. unfold useFrame, setFromSpherical, norm2.
  cbn [sunDir vx vy vz].
  pose proof (sin2_cos2 phi) as Hp. pose proof (sin2_cos2 theta) as Ht.
  unfold Rsqr in Hp, Ht.
  replace (_ + _ + _)
    with (sin phi * sin phi * (sin theta * sin theta + cos theta * cos theta)
          + cos phi * cos phi) by ring.
  rewrite Ht. lra.
Qed.

End Planet.

(* ------------------------------------------------------------------ *)
(** ** Instances *)

Section Instances.

Import LoadingOverlay.

Lemma alpha_stays_in_unit_interval_witness :
  0 <= alpha (fst (run defaultProps [Render false 100 0; Frame (1 / 60) 700]
                     (initState 3))) <= 1.
Proof.
  refine (proj1 (alpha_stays_in_unit_interval defaultProps
                   [Render false 100 0; Frame (1 / 60) 700] 3 _)).
  repeat (apply Forall_cons; [cbn; try lra; exact I |]). apply Forall_nil.
Defined.

Lemma display_progress_stays_in_unit_interval_witness :
  0 <= displayRef (fst (run defaultProps
                          [Render true 250 0; Frame (1 / 60) 16;
                           Render false (-5) 20; Frame (1 / 60) 33]
                          (initState 3))) <= 1.
Proof.
  refine (proj1 (display_progress_stays_in_unit_interval defaultProps
                   [Render true 250 0; Frame (1 / 60) 16;
                    Render false (-5) 20; Frame (1 / 60) 33] 3 _ _ _)).
  - cbn; lra.
  - cbn; lra.
  - repeat (apply Forall_cons; [cbn; try lra; exact I |]). apply Forall_nil.
Defined.

(** A state that has finished under the default configuration. *)
Lemma finished_overlay_is_frozen_witness :
  alpha (fst (run defaultProps [Render true 50 0; Frame (1 / 60) 16]
                (mkState (1 / 200) true Done 600 1 1 false 100 (Some false)
                         (Some (1 / 200)) 3)))
  = 1 / 200.
Proof.
  refine (proj1 (proj2 (finished_overlay_is_frozen defaultProps
                          [Render true 50 0; Frame (1 / 60) 16]
                          (mkState (1 / 200) true Done 600 1 1 false 100
                                   (Some false) (Some (1 / 200)) 3) _ _)));
    reflexivity.
Defined.

Lemma exposure_untouched_without_ramp_witness :
  toneMappingExposure
    (fst (run defaultProps [Render false 100 0; Frame 60 60000] (initState 3)))
  = 3.
Proof.
  refine (exposure_untouched_without_ramp defaultProps
            [Render false 100 0; Frame 60 60000] (initState 3) _).
  reflexivity.
Defined.

(** The second overlay of [App.jsx]: [delay={0.8} fade={.8} animateExposure]. *)
Lemma exposure_ramp_between_ends_witness :
  Rmin (6 / 10) 3
  <= toneMappingExposure
       (fst (useFrame (mkProps (8 / 10) (8 / 10) true 8 (96 / 100) true (6 / 10) 3)
               (1 / 60) 16 (initState 3)))
  <= Rmax (6 / 10) 3.
Proof.
  refine (proj1 (proj2 (proj2 (exposure_ramp_between_ends
            (mkProps (8 / 10) (8 / 10) true 8 (96 / 100) true (6 / 10) 3)
            (1 / 60) 16 (initState 3) _ _ _ _)))).
  - reflexivity.
  - reflexivity.
  - cbn; lra.
  - lra.
Defined.

(** A fade time of zero: one 10 ms frame finishes the fade. *)
Lemma long_enough_frame_finishes_fade_witness :
  phase (fst (useFrame (mkProps (6 / 10) 0 true 8 (96 / 100) false (6 / 10) 3)
                (1 / 100) 700
                (mkState 1 false Hold 600 1 1 false 100 (Some false) (Some 1) 3)))
  = Done.
Proof.
  refine (proj1 (long_enough_frame_finishes_fade
                   (mkProps (6 / 10) 0 true 8 (96 / 100) false (6 / 10) 3)
                   (1 / 100) 700
                   (mkState 1 false Hold 600 1 1 false 100 (Some false) (Some 1) 3)
                   _ _ _ _)).
  - reflexivity.
  - cbn; lra.
  - right. cbn. split; [reflexivity | lra].
  - unfold fadeRate, ltb; cbn [fade].
    destruct (Rlt_dec 0 0); lra.
Defined.

Lemma overlay_stays_opaque_while_loading_witness :
  alpha (fst (run defaultProps
                [Frame (1 / 60) 16; Render true 40 20; Frame 5 5020]
                (render defaultProps true 0 0 (initState 3))))
  = 1.
Proof.
  refine (proj1 (proj2 (overlay_stays_opaque_while_loading defaultProps
            [Frame (1 / 60) 16; Render true 40 20; Frame 5 5020] 0 0 3 _))).
  repeat (apply Forall_cons; [cbn; try reflexivity; exact I |]). apply Forall_nil.
Defined.

(** Two seconds of hovering from the resting state: the open amount has
    risen from 0 to within a tenth of 1, the title has grown to within a
    tenth of 1.22 and the line has faded to within a tenth of 0.45. *)
Lemma callout_settles_on_hover_targets_witness :
  WonderCallout.open WonderCallout.freshRefs = 0
  /\ Rabs (WonderCallout.open
             (WonderCallout.frames true WonderCallout.initialBaseSize (9 / 20)
                [1; 1] WonderCallout.freshRefs)
           - 1) < 1 / 10
  /\ Rabs (WonderCallout.titleScale
             (WonderCallout.frames true WonderCallout.initialBaseSize (9 / 20)
                [1; 1] WonderCallout.freshRefs)
           - 122 / 100) < 1 / 10
  /\ Rabs (WonderCallout.lineOpacity
             (WonderCallout.frames true WonderCallout.initialBaseSize (9 / 20)
                [1; 1] WonderCallout.freshRefs)
           - 45 / 100) < 1 / 10.
Proof.
  split; [reflexivity |].
  refine (callout_settles_on_hover_targets true
            WonderCallout.initialBaseSize (9 / 20) (1 / 10) [1; 1]
            WonderCallout.freshRefs _ _ _).
  - unfold WonderCallout.inRange; cbn. lra.
  - lra.
  - cbn. replace (/ (6 * (1 / 10))) with (10 / 6) by field. lra.
Defined.

End Instances.
